(** * hand-flight: noise augmentation of a COCO data set

    A shallow embedding of [src/data_augmentation/augment_data_noise.py]
    and the properties of its two functions,
    [add_noise_and_update_annotations] and [augment_coco_dataset].

    Python values are modelled as follows.
    - [str] is a list of characters, so that slices are [take] and [drop].
    - [int] is [Z].  A [uint8] is a [Z] in [0, 256) and its arithmetic is
      written with an explicit [mod 256].
    - a [float] is the rational it denotes ([Q]); rounding is not modelled.
    - a [dict] with string keys is a [gmap string value].
    - annotation dicts are objects on a heap, since the program copies
      them and assigns to a key of the copy.
    - an entry of ["images"] is a record of the four keys the program
      reads, with an integer ["id"] and a string ["file_name"], as in the
      COCO format; an annotation is a dict, whose ["image_id"] may be
      missing ([KeyError]) or of any type.
    - an image is 8-bit: its pixel array has dtype [uint8], and so has the
      sum of line 20.
    - [os.path] is [posixpath].
    - the file system, the random generator and standard output are fields
      of an explicit [world]; an exception is a result of a computation. *)

From Stdlib Require Import ZArith QArith Ascii String List Lia.
From stdpp Require Import base option list gmap sets strings pretty.

Set Default Proof Using "Type".
Set Warnings "-register-all".
Local Open Scope Z_scope.

(** ** Python strings *)

Definition str := list ascii.

(** A string literal. *)
Definition py (s : string) : str := list_ascii_of_string s.

Module Str.

(** [s.rfind(c)]: the index of the last [c] in [s], or [-1]. *)
Fixpoint rfind (c : ascii) (s : str) : Z :=
  match s with
  | [] => -1
  | x :: s' =>
      let r := rfind c s' in
      if 0 <=? r then 1 + r
      else if decide (x = c) then 0 else -1
  end.

(** The position a slice bound denotes in a string of length [n]:
    a negative bound counts from the end, and bounds are clamped. *)
Definition bound (n : nat) (i : Z) : nat :=
  Z.to_nat (Z.min (Z.of_nat n) (if i <? 0 then Z.max 0 (Z.of_nat n + i) else i)).

(** [s[i:]] and [s[:i]] *)
Definition from (i : Z) (s : str) : str := drop (bound (length s) i) s.
Definition upto (i : Z) (s : str) : str := take (bound (length s) i) s.

(** [s[i:j]] *)
Definition slice (i j : Z) (s : str) : str :=
  take (bound (length s) j - bound (length s) i) (drop (bound (length s) i) s).

Definition startswith (c : ascii) (s : str) : bool :=
  match s with
  | x :: _ => bool_decide (x = c)
  | [] => false
  end.

Definition endswith (c : ascii) (s : str) : bool :=
  match last s with
  | Some x => bool_decide (x = c)
  | None => false
  end.

(** [s.rstrip(c)] *)
Fixpoint rstrip (c : ascii) (s : str) : str :=
  match s with
  | [] => []
  | x :: s' =>
      match rstrip c s' with
      | [] => if decide (x = c) then [] else [x]
      | r => x :: r
      end
  end.

(** [s.split(c)] *)
Fixpoint split (c : ascii) (s : str) : list str :=
  match s with
  | [] => [[]]
  | x :: s' =>
      if decide (x = c) then [] :: split c s'
      else match split c s' with
           | w :: ws => (x :: w) :: ws
           | [] => [[x]]
           end
  end.

(** [sep.join(parts)] *)
Fixpoint join (sep : str) (parts : list str) : str :=
  match parts with
  | [] => []
  | [w] => w
  | w :: ws => w ++ sep ++ join sep ws
  end.

(** [s.replace(a, b)] for single characters [a] and [b]. *)
Definition replace (a b : ascii) (s : str) : str :=
  (fun x => if decide (x = a) then b else x) <$> s.

End Str.

(** ** [os.path] on a POSIX host ([posixpath]) *)

Module Path.

Definition sep : ascii := "/"%char.
Definition extsep : ascii := "."%char.
Definition backslash : ascii := "\"%char.

(** [os.path.basename] *)
Definition basename (p : str) : str :=
  let i := Str.rfind sep p + 1 in
  Str.from i p.

(** [os.path.dirname] *)
Definition dirname (p : str) : str :=
  let i := Str.rfind sep p + 1 in
  let head := Str.upto i p in
  if bool_decide (head <> [] /\ head <> replicate (length head) sep)
  then Str.rstrip sep head
  else head.

(** [os.path.splitext]: the extension starts at the last dot of the last
    component, unless only dots precede it there. *)
Definition splitext (p : str) : str * str :=
  let sepIndex := Str.rfind sep p in
  let dotIndex := Str.rfind extsep p in
  if (sepIndex <? dotIndex)
     && existsb (fun c => bool_decide (c <> extsep))
                (Str.slice (sepIndex + 1) dotIndex p)
  then (Str.upto dotIndex p, Str.from dotIndex p)
  else (p, []).

(** [os.path.join(a, b)] *)
Definition join (a b : str) : str :=
  if Str.startswith sep b then b
  else if bool_decide (a = []) || Str.endswith sep a then a ++ b
  else a ++ sep :: b.

(** [os.path.join(a, b, c)] *)
Definition join3 (a b c : str) : str := join (join a b) c.

(** The loop of [os.path.normpath] over the components; [acc] is
    [new_comps] in reverse, [initial] tells whether the path is absolute. *)
Fixpoint normcomps (initial : bool) (comps : list str) (acc : list str)
  : list str :=
  match comps with
  | [] => rev acc
  | comp :: rest =>
      if bool_decide (comp = [] \/ comp = py ".") then normcomps initial rest acc
      else if bool_decide (comp <> py "..")
              || (negb initial && bool_decide (acc = []))
              || match acc with
                 | top :: _ => bool_decide (top = py "..")
                 | [] => false
                 end
      then normcomps initial rest (comp :: acc)
      else normcomps initial rest (tail acc)
  end.

(** [os.path.normpath] *)
Definition normpath (path : str) : str :=
  if bool_decide (path = []) then py "."
  else
    let initial_slashes : nat :=
      if Str.startswith sep path then
        if Str.startswith sep (drop 1 path)
           && negb (Str.startswith sep (drop 2 path))
        then 2%nat else 1%nat
      else 0%nat in
    let comps := normcomps (bool_decide (initial_slashes <> 0%nat))
                           (Str.split sep path) [] in
    let path' := replicate initial_slashes sep ++ Str.join [sep] comps in
    if bool_decide (path' = []) then py "." else path'.

End Path.

(** ** Values, records and objects *)

(** A value decoded from JSON.  Nested containers are immutable here: the
    program never assigns inside them. *)
Inductive value :=
| VNone
| VBool (b : bool)
| VInt (n : Z)
| VFloat (q : Q)
| VStr (s : str)
| VList (l : list value)
| VDict (d : list (string * value)).

(** A Python dict with string keys. *)
Abbreviation dict := (gmap string value).

(** [v == k] for an int [k]: a bool counts as 0 or 1, a float is compared by
    its exact value, and a value of another type is unequal to any int. *)
Definition eq_int (v : value) (k : Z) : bool :=
  match v with
  | VInt n => n =? k
  | VBool b => (if b then 1 else 0) =? k
  | VFloat q => Qeq_bool q (inject_Z k)
  | _ => false
  end.

(** An entry of ["images"]: the four keys the program reads and writes. *)
Module ImageRecord.
Record t := mk {
  id : Z;
  file_name : str;
  width : value;
  height : value }.
End ImageRecord.

(** The content of a COCO annotation file: ["images"], ["annotations"] and
    the remaining top-level keys. *)
Module Coco.
Record t := mk {
  images : list ImageRecord.t;
  annotations : list dict;
  others : dict }.
End Coco.

(** Addresses of dict objects. *)
Definition loc := nat.

(** The loaded [coco_data]: its annotation dicts are heap objects. *)
Record coco_data := CocoData {
  cd_images : list ImageRecord.t;
  cd_annotations : list loc;
  cd_others : dict }.

(** ** Exceptions, the world and the monad of effects *)

Inductive exn :=
| FileNotFoundError
| PermissionError
| IsADirectoryError
| UnidentifiedImageError
| JSONDecodeError
| KeyError
| ValueError
| OSError.

Global Instance exn_eq_dec : EqDecision exn.
Proof. solve_decision. Defined.

(** A file: an image holding a [uint8] pixel array (flattened), a COCO
    annotation file, or anything else. *)
Inductive file :=
| FImage (pixels : list Z)
| FJson (c : Coco.t)
| FOther.

(** [faults] lists the paths on which an operation of the operating system
    fails, and how (no permission, missing directory, device error...).
    [normals] is the sequence of standard normal deviates the global
    generator of [np.random] yields, [drawn] how many were consumed. *)
Record world := World {
  heap : gmap loc dict;
  files : gmap str file;
  dirs : gset str;
  faults : gmap str exn;
  normals : nat -> Q;
  drawn : nat;
  stdout : list str }.

Definition set_heap (f : gmap loc dict -> gmap loc dict) (w : world) : world :=
  World (f (heap w)) (files w) (dirs w) (faults w) (normals w) (drawn w) (stdout w).
Definition set_files (f : gmap str file -> gmap str file) (w : world) : world :=
  World (heap w) (f (files w)) (dirs w) (faults w) (normals w) (drawn w) (stdout w).
Definition set_dirs (f : gset str -> gset str) (w : world) : world :=
  World (heap w) (files w) (f (dirs w)) (faults w) (normals w) (drawn w) (stdout w).
Definition set_drawn (f : nat -> nat) (w : world) : world :=
  World (heap w) (files w) (dirs w) (faults w) (normals w) (f (drawn w)) (stdout w).
Definition set_stdout (f : list str -> list str) (w : world) : world :=
  World (heap w) (files w) (dirs w) (faults w) (normals w) (drawn w) (f (stdout w)).

Inductive result (A : Type) :=
| Ok (a : A)
| Raise (e : exn).
Arguments Ok {A} a.
Arguments Raise {A} e.

(** A computation: from a world to a value or an exception, and the world
    it leaves (effects made before an exception stay). *)
Definition M (A : Type) : Type := world -> result A * world.

Global Instance M_ret : MRet M := fun A a w => (Ok a, w).
Global Instance M_bind : MBind M := fun A B k m w =>
  match m w with
  | (Ok a, w') => k a w'
  | (Raise e, w') => (Raise e, w')
  end.

Definition raise {A} (e : exn) : M A := fun w => (Raise e, w).

(** [try: body except: handler] *)
Definition try_except {A} (body : M A) (handler : exn -> M A) : M A := fun w =>
  match body w with
  | (Ok a, w') => (Ok a, w')
  | (Raise e, w') => handler e w'
  end.

(** ** The operations the program calls *)

(** [print(msg)] *)
Definition print (msg : str) : M unit := fun w =>
  (Ok tt, set_stdout (fun out => out ++ [msg]) w).

(** [str(n)] for an int *)
Definition str_of_int (n : Z) : str := py (pretty n).

(** [np.array(Image.open(path))]: the pixels of the image at [path]. *)
Definition Image_open (path : str) : M (list Z) := fun w =>
  match faults w !! path with
  | Some e => (Raise e, w)
  | None =>
      match files w !! path with
      | None => (Raise FileNotFoundError, w)
      | Some (FImage pixels) => (Ok pixels, w)
      | Some _ => (Raise UnidentifiedImageError, w)
      end
  end.

(** [Image.fromarray(a).save(path)], PNG being lossless. *)
Definition Image_save (path : str) (a : list Z) : M unit := fun w =>
  match faults w !! path with
  | Some e => (Raise e, w)
  | None => (Ok tt, set_files <[path := FImage a]> w)
  end.

(** [np.random.normal(loc, scale, shape)] for an array of [size] elements:
    [loc + scale * z] for the next [size] standard normal deviates [z]. *)
Definition random_normal (loc scale : Q) (size : nat) : M (list Q) := fun w =>
  if Qlt_le_dec scale 0 then (Raise ValueError, w)
  else (Ok ((fun i => (loc + scale * normals w (drawn w + i)%nat)%Q) <$> seq 0 size),
        set_drawn (fun n => (n + size)%nat) w).

(** [x.astype(np.uint8)] of a float: the fraction is dropped (toward
    zero) and the integer is reduced modulo 256. *)
Definition astype_uint8 (x : Q) : Z :=
  Z.quot (Qnum x) (Z.pos (Qden x)) mod 256.

(** [a + b] of two [uint8] arrays: the sum is a [uint8] again. *)
Definition uint8_add (a b : list Z) : list Z :=
  zip_with (fun x y => (x + y) mod 256) a b.

(** [np.clip(a, a_min, a_max)] *)
Definition np_clip (a : list Z) (a_min a_max : Z) : list Z :=
  (fun x => Z.min a_max (Z.max a_min x)) <$> a.

(** [d.copy()]: a new object with the keys and values of [l]. *)
Definition dict_copy (l : loc) : M loc := fun w =>
  let l' := fresh (dom (heap w)) in
  (Ok l', set_heap <[l' := heap w !!! l]> w).

(** [d[k] = v] *)
Definition dict_setitem (l : loc) (k : string) (v : value) : M unit := fun w =>
  (Ok tt, set_heap (alter <[k := v]> l) w).

(** [d[k]] *)
Definition dict_getitem (l : loc) (k : string) : M value := fun w =>
  match (heap w !!! l) !! k with
  | Some v => (Ok v, w)
  | None => (Raise KeyError, w)
  end.

(** [os.makedirs(path, exist_ok=True)]; of the directories it creates only
    [path] itself is recorded. *)
Definition makedirs (path : str) : M unit := fun w =>
  match faults w !! path with
  | Some e => (Raise e, w)
  | None => (Ok tt, set_dirs (fun d => {[path]} ∪ d) w)
  end.

(** The objects [json.load] creates for a list of dicts. *)
Fixpoint alloc_dicts (ds : list dict) (h : gmap loc dict) : list loc * gmap loc dict :=
  match ds with
  | [] => ([], h)
  | d :: ds' =>
      let l := fresh (dom h) in
      let '(ls, h') := alloc_dicts ds' (<[l := d]> h) in
      (l :: ls, h')
  end.

(** [with open(path, "r") as f: json.load(f)] *)
Definition json_load (path : str) : M coco_data := fun w =>
  match faults w !! path with
  | Some e => (Raise e, w)
  | None =>
      match files w !! path with
      | None => (Raise FileNotFoundError, w)
      | Some (FJson c) =>
          let '(ls, h) := alloc_dicts (Coco.annotations c) (heap w) in
          (Ok (CocoData (Coco.images c) ls (Coco.others c)), set_heap (fun _ => h) w)
      | Some _ => (Raise JSONDecodeError, w)
      end
  end.

(** [with open(path, "w") as f: json.dump(coco_data, f, indent=4)] *)
Definition json_dump (path : str) (c : coco_data) : M unit := fun w =>
  match faults w !! path with
  | Some e => (Raise e, w)
  | None =>
      let out := Coco.mk (cd_images c) ((fun l => heap w !!! l) <$> cd_annotations c)
                         (cd_others c) in
      (Ok tt, set_files <[path := FJson out]> w)
  end.

(** ** The program *)

(** The offset of line 85. *)
Definition id_offset : Z := 4200000.

(** Lines 32-36: the loop that copies the annotations. *)
Fixpoint update_annotations (annotations : list loc) (new_image_id : Z)
    (new_annotations : list loc) : M (list loc) :=
  match annotations with
  | [] => mret new_annotations
  | annotation :: rest =>
      new_annotation ← dict_copy annotation;
      dict_setitem new_annotation "image_id" (VInt new_image_id);;
      update_annotations rest new_image_id (new_annotations ++ [new_annotation])
  end.

(** Lines 16-22: the noisy pixel array, given the sampled noise. *)
Definition noisy_image_array (image_array : list Z) (samples : list Q) : list Z :=
  let noise := astype_uint8 <$> samples in
  np_clip (uint8_add image_array noise) 0 255.

(** Lines 25-28 *)
Definition noisy_image_name (image_path : str) : str :=
  (Path.splitext (Path.basename image_path)).1 ++ py "_augmented_noise.png".

(** Lines 7-42.  The result is [(noisy_image_path, new_annotations)], the
    path being [None] in the handler. *)
Definition add_noise_and_update_annotations
    (image_path : str) (annotations : list loc) (output_dir : str)
    (new_image_id : Z) (noise_factor : Q) : M (option str * list loc) :=
  try_except
    (image_array ← Image_open image_path;
     samples ← random_normal 0 noise_factor (length image_array);
     let noisy := noisy_image_array image_array samples in
     let noisy_image_path := Path.join output_dir (noisy_image_name image_path) in
     Image_save noisy_image_path noisy;;
     new_annotations ← update_annotations annotations new_image_id [];
     mret (Some noisy_image_path, new_annotations))
    (fun e =>
       match e with
       | FileNotFoundError =>
           print (py "File not found: " ++ image_path ++ py ". Skipping this image.");;
           mret (None, [])
       | _ => raise e
       end).

(** Lines 80-82: the list comprehension over [coco_data["annotations"]]. *)
Fixpoint select_annotations (annotations : list loc) (image_id : Z) : M (list loc) :=
  match annotations with
  | [] => mret []
  | ann :: rest =>
      v ← dict_getitem ann "image_id";
      selected ← select_annotations rest image_id;
      mret (if eq_int v image_id then ann :: selected else selected)
  end.

(** Lines 54-58 *)
Definition last_two_letters (coco_json_path : str) : str :=
  let base_name := Path.basename coco_json_path in
  py "_" ++ Str.from (-2) (Path.splitext base_name).1.

(** Line 61 *)
Definition images_subdir (coco_json_path output_dir : str) : str :=
  Path.join output_dir (py "images" ++ last_two_letters coco_json_path).

(** Lines 71-77 *)
Definition image_path_of (coco_json_path : str) (image_info : ImageRecord.t) : str :=
  Str.replace Path.backslash Path.sep
    (Path.normpath
       (Path.join3 (Path.dirname coco_json_path)
                   (py "images" ++ last_two_letters coco_json_path)
                   (Str.from 7 (ImageRecord.file_name image_info)))).

(** Lines 109-111 *)
Definition new_coco_json_path (coco_json_path output_dir : str) : str :=
  Path.join output_dir (py "augmented_noise" ++ last_two_letters coco_json_path ++ py ".json").

(** Lines 93-98 *)
Definition noisy_image_info (image_info : ImageRecord.t) (new_image_id : Z)
    (noisy_image_path : str) : ImageRecord.t :=
  ImageRecord.mk new_image_id
    (py "images\" ++ Path.basename noisy_image_path)
    (ImageRecord.width image_info)
    (ImageRecord.height image_info).

(** Lines 70-102: the body of the loop over the images; the state of the
    loop is [(new_images, new_annotations)]. *)
Definition process_image (coco_json_path output_dir : str) (noise_factor : Q)
    (all_annotations : list loc) (image_info : ImageRecord.t)
    (acc : list ImageRecord.t * list loc) : M (list ImageRecord.t * list loc) :=
  let image_id := ImageRecord.id image_info in
  let image_path := image_path_of coco_json_path image_info in
  annotations ← select_annotations all_annotations image_id;
  let new_image_id := image_id + id_offset in
  r ← add_noise_and_update_annotations image_path annotations
        (images_subdir coco_json_path output_dir) new_image_id noise_factor;
  match r.1 with
  | Some noisy_image_path =>
      mret (acc.1 ++ [noisy_image_info image_info new_image_id noisy_image_path],
            acc.2 ++ r.2)
  | None =>
      print (py "Removing annotations for image ID: " ++ str_of_int image_id);;
      mret acc
  end.

(** Lines 69-102: the loop. *)
Fixpoint process_images (coco_json_path output_dir : str) (noise_factor : Q)
    (all_annotations : list loc) (images : list ImageRecord.t)
    (acc : list ImageRecord.t * list loc) : M (list ImageRecord.t * list loc) :=
  match images with
  | [] => mret acc
  | image_info :: rest =>
      acc' ← process_image coco_json_path output_dir noise_factor all_annotations
               image_info acc;
      process_images coco_json_path output_dir noise_factor all_annotations rest acc'
  end.

(** Lines 45-113 *)
Definition augment_coco_dataset (coco_json_path output_dir : str) (noise_factor : Q)
    : M unit :=
  coco_data ← json_load coco_json_path;
  makedirs output_dir;;
  makedirs (images_subdir coco_json_path output_dir);;
  acc ← process_images coco_json_path output_dir noise_factor
          (cd_annotations coco_data) (cd_images coco_data) ([], []);
  json_dump (new_coco_json_path coco_json_path output_dir)
    (CocoData acc.1 acc.2 (cd_others coco_data)).

(** [os.path.abspath(path)] in the working directory [cwd]. *)
Definition abspath (cwd path : str) : str :=
  Path.normpath (if Str.startswith Path.sep path then path else Path.join cwd path).

(** Lines 116-137: the script, run as the file [file] ([__file__]) in the
    working directory [cwd]. *)
Definition main (cwd file : str) : M unit :=
  let absolute_path := Path.dirname file in
  let project_root := abspath cwd (Path.join absolute_path (py "../../")) in
  let input_relative_path := py "dataset/frames" in
  let input_dir_full_path := Path.join project_root input_relative_path in
  let last_letters := py "DK" in
  let coco_json_path :=
    Path.join input_dir_full_path (py "frames_" ++ last_letters ++ py ".json") in
  let output_relative_path := py "dataset/augmented/augmented_noise" in
  let output_dir_full_path := Path.join project_root output_relative_path in
  let noise_factor : Q := 20 # 1 in
  augment_coco_dataset coco_json_path output_dir_full_path noise_factor.

(** * The vocabulary of the statements *)

(** The value line 19-21 is documented to compute: the sum of the pixel
    and the [uint8] noise as integers, clipped to [[0, 255]]. *)
Definition clipped_sum_spec (image_array : list Z) (samples : list Q) : list Z :=
  zip_with (fun p x => Z.min 255 (Z.max 0 (p + astype_uint8 x))) image_array samples.

Definition uint8_array (a : list Z) : Prop := Forall (fun x => 0 <= x < 256) a.

(** A world that differs from [w] in its heap at most. *)
Definition heap_only (w w' : world) : Prop := w' = set_heap (fun _ => heap w') w.

(** Every object of [h] is in [h'], unchanged. *)
Definition preserved (h h' : gmap loc dict) : Prop :=
  forall l d, h !! l = Some d -> h' !! l = Some d.

(** Where the noisy image goes (line 28). *)
Definition noisy_image_path (image_path output_dir : str) : str :=
  Path.join output_dir (noisy_image_name image_path).

(** The message of line 41. *)
Definition not_found_msg (image_path : str) : str :=
  py "File not found: " ++ image_path ++ py ". Skipping this image.".

(** The samples line 16 draws in [w] for an array of [n] elements. *)
Definition samples_in (noise_factor : Q) (w : world) (n : nat) : list Q :=
  (fun i => (0 + noise_factor * normals w (drawn w + i)%nat)%Q) <$> seq 0 n.

(** The ways through [add_noise_and_update_annotations], with the result
    and the world each leaves. *)
Inductive outcome (image_path : str) (annotations : list loc) (output_dir : str)
    (new_image_id : Z) (noise_factor : Q) (w : world)
    : result (option str * list loc) -> world -> Prop :=
| open_raises e :
    Image_open image_path w = (Raise e, w) ->
    e <> FileNotFoundError ->
    outcome image_path annotations output_dir new_image_id noise_factor w
        (Raise e) w
| open_not_found :
    Image_open image_path w = (Raise FileNotFoundError, w) ->
    outcome image_path annotations output_dir new_image_id noise_factor w
        (Ok (None, [])) (set_stdout (fun out => out ++ [not_found_msg image_path]) w)
| negative_scale a :
    Image_open image_path w = (Ok a, w) ->
    (noise_factor < 0)%Q ->
    outcome image_path annotations output_dir new_image_id noise_factor w
        (Raise ValueError) w
| save_raises a e :
    Image_open image_path w = (Ok a, w) ->
    (0 <= noise_factor)%Q ->
    faults w !! noisy_image_path image_path output_dir = Some e ->
    e <> FileNotFoundError ->
    outcome image_path annotations output_dir new_image_id noise_factor w
        (Raise e) (set_drawn (fun n => (n + length a)%nat) w)
| save_not_found a :
    Image_open image_path w = (Ok a, w) ->
    (0 <= noise_factor)%Q ->
    faults w !! noisy_image_path image_path output_dir = Some FileNotFoundError ->
    outcome image_path annotations output_dir new_image_id noise_factor w
        (Ok (None, []))
      (set_stdout (fun out => out ++ [not_found_msg image_path])
         (set_drawn (fun n => (n + length a)%nat) w))
| saved a new h' :
    Image_open image_path w = (Ok a, w) ->
    (0 <= noise_factor)%Q ->
    faults w !! noisy_image_path image_path output_dir = None ->
    preserved (heap w) h' ->
    length new = length annotations ->
    NoDup new ->
    Forall (fun l => l ∉ dom (heap w)) new ->
    (Forall (fun l => l ∈ dom (heap w)) annotations ->
     Forall2 (fun l l' =>
                h' !! l' = Some (<["image_id" := VInt new_image_id]> (heap w !!! l)))
             annotations new) ->
    outcome image_path annotations output_dir new_image_id noise_factor w
        (Ok (Some (noisy_image_path image_path output_dir), new))
      (set_heap (fun _ => h')
         (set_files <[noisy_image_path image_path output_dir :=
                        FImage (noisy_image_array a (samples_in noise_factor w (length a)))]>
            (set_drawn (fun n => (n + length a)%nat) w))).

(** [ann["image_id"] == image_id] for the object at [l], when the key is
    there. *)
Definition image_id_is (h : gmap loc dict) (image_id : Z) (l : loc) : bool :=
  match (h !!! l) !! "image_id" with
  | Some v => eq_int v image_id
  | None => false
  end.

(** The object at [l] has the key ["image_id"]. *)
Definition has_image_id (h : gmap loc dict) (l : loc) : Prop :=
  is_Some ((h !!! l) !! "image_id").

(** The message of line 102. *)
Definition removing_msg (image_id : Z) : str :=
  py "Removing annotations for image ID: " ++ str_of_int image_id.

(** The record the loop appends for a surviving image. *)
Definition output_record (coco_json_path output_dir : str) (image_info : ImageRecord.t)
    : ImageRecord.t :=
  noisy_image_info image_info (ImageRecord.id image_info + id_offset)
    (noisy_image_path (image_path_of coco_json_path image_info)
       (images_subdir coco_json_path output_dir)).

(** The object [l'] is the copy made for image [r] of an annotation of
    [r], with ["image_id"] set to the id of the record output for [r]. *)
Definition derived (coco_json_path output_dir : str) (all_annotations : list loc)
    (h h' : gmap loc dict) (imgs new_imgs : list ImageRecord.t) (l' : loc) : Prop :=
  exists r l,
    r ∈ imgs /\ output_record coco_json_path output_dir r ∈ new_imgs /\
    l ∈ all_annotations /\ image_id_is h (ImageRecord.id r) l = true /\
    h' !! l' = Some (<["image_id" := VInt (ImageRecord.id r + id_offset)]> (h !!! l)).

(** The program up to the point where the loop has processed the first
    [k] images: the loaded data and the two lists built so far. *)
Definition before_image (coco_json_path output_dir : str) (noise_factor : Q) (k : nat)
    : M (coco_data * (list ImageRecord.t * list loc)) :=
  coco_data ← json_load coco_json_path;
  makedirs output_dir;;
  makedirs (images_subdir coco_json_path output_dir);;
  acc ← process_images coco_json_path output_dir noise_factor
          (cd_annotations coco_data) (take k (cd_images coco_data)) ([], []);
  mret (coco_data, acc).

(** The rest of the program from there. *)
Definition from_image (coco_json_path output_dir : str) (noise_factor : Q) (k : nat)
    (st : coco_data * (list ImageRecord.t * list loc)) : M unit :=
  acc ← process_images coco_json_path output_dir noise_factor
          (cd_annotations st.1) (drop k (cd_images st.1)) st.2;
  json_dump (new_coco_json_path coco_json_path output_dir)
    (CocoData acc.1 acc.2 (cd_others st.1)).

(** [ann] is an annotation of the input, selected for an image whose
    record is in [imgs_out], with ["image_id"] set to the id of that record. *)
Definition remapped_from (coco_json_path output_dir : str) (c : Coco.t)
    (imgs_out : list ImageRecord.t) (ann : dict) : Prop :=
  exists r d v,
    r ∈ Coco.images c /\ output_record coco_json_path output_dir r ∈ imgs_out /\
    d ∈ Coco.annotations c /\
    d !! "image_id" = Some v /\ eq_int v (ImageRecord.id r) = true /\
    ann = <["image_id" := VInt (ImageRecord.id r + id_offset)]> d.

(** The file at [path], if there is one, is an image. *)
Definition image_or_missing (w : world) (path : str) : Prop :=
  forall f, files w !! path = Some f -> exists pixels, f = FImage pixels.

(** A component [normpath] keeps as it is. *)
Definition plain (comp : str) : Prop :=
  comp <> [] /\ comp <> py "." /\ comp <> py ".." /\ Path.sep ∉ comp.

(** A path written from its components. *)
Definition path_of (absolute : bool) (comps : list str) : str :=
  (if absolute then [Path.sep] else []) ++ Str.join [Path.sep] comps.

(** [d["image_id"] == image_id] for a dict with the key. *)
Definition matching (image_id : Z) (d : dict) : bool :=
  match d !! "image_id" with
  | Some v => eq_int v image_id
  | None => false
  end.

(** The annotations a surviving image contributes: those of the input
    that match its id, in order, with the new id. *)
Definition expected_annotations (annotations : list dict) (image_info : ImageRecord.t)
    : list dict :=
  (fun d => <["image_id" := VInt (ImageRecord.id image_info + id_offset)]> d)
    <$> List.filter (matching (ImageRecord.id image_info)) annotations.

(** The file a run writes when every image survives. *)
Definition expected_output (coco_json_path output_dir : str) (c : Coco.t) : Coco.t :=
  Coco.mk (output_record coco_json_path output_dir <$> Coco.images c)
          (concat (expected_annotations (Coco.annotations c) <$> Coco.images c))
          (Coco.others c).

(** The image file of [image_info] is there. *)
Definition image_present (coco_json_path : str) (w : world) (image_info : ImageRecord.t)
    : Prop :=
  exists pixels, files w !! image_path_of coco_json_path image_info = Some (FImage pixels).

(** Between [w] and [w'] files were written at paths in [P] only, and
    none was removed. *)
Definition writes_within (P : str -> Prop) (w w' : world) : Prop :=
  (forall p, ~ P p -> files w' !! p = files w !! p) /\
  (forall p, is_Some (files w !! p) -> is_Some (files w' !! p)).


(** A file without its pixels. *)
Definition erase (f : file) : file :=
  match f with
  | FImage _ => FImage []
  | _ => f
  end.

(** Two worlds that differ in the pixels of their images and in the state
    of the random generator at most. *)
Definition same_but_pixels (w1 w2 : world) : Prop :=
  heap w1 = heap w2 /\ erase <$> files w1 = erase <$> files w2 /\
  dirs w1 = dirs w2 /\ faults w1 = faults w2 /\ stdout w1 = stdout w2.

(** Two computations that, from such worlds, lead to such worlds, with the
    same exception or with results related by [R]. *)
Definition related {A} (R : A -> A -> Prop) (m1 m2 : M A) : Prop :=
  forall w1 w2, same_but_pixels w1 w2 ->
    same_but_pixels (m1 w1).2 (m2 w2).2 /\
    match (m1 w1).1, (m2 w2).1 with
    | Ok a, Ok b => R a b
    | Raise e1, Raise e2 => e1 = e2
    | _, _ => False
    end.

(** * Example data *)

Module Example.

Definition coco_json_path : str := py "d/frames_DK.json".
Definition sigma : Q := 20 # 1.
Definition output_dir : str := py "out".

Definition ann1 : dict :=
  <["image_id" := VInt 1]>
    (<["bbox" := VList [VInt 0; VInt 0; VInt 10; VInt 10]]> ∅).

Definition img1 : ImageRecord.t :=
  ImageRecord.mk 1 (py "images\a.jpg") (VInt 100) (VInt 80).


Definition coco1 : Coco.t := Coco.mk [img1] [ann1] ∅.


(** The deviates the generator yields: -1/2, 0, 1/2, 1, ... *)
Definition deviates (n : nat) : Q := (Z.of_nat n - 1) # 2.

Definition world_with (c : Coco.t) (images : gmap str file) : world :=
  World ∅ (<[coco_json_path := FJson c]> images) ∅ ∅ deviates 0 [].

Definition pixels1 : list Z := [250; 3; 7].

(** The image of [img1] is there. *)
Definition world1 : world :=
  world_with coco1 (<[py "d/images_DK/a.jpg" := FImage pixels1]> ∅).

(** No image is there. *)
Definition world0 : world := world_with coco1 ∅.



(** An image with a bright pixel, where [out] exists. *)
Definition world_wrap : world :=
  World ∅ (<[py "a.jpg" := FImage [3; 7; 250]]> ∅) ∅ ∅ deviates 0 [].

(** An annotation without ["image_id"], after one that has it. *)
Definition ann_nokey : dict := <["bbox" := VList [VInt 1; VInt 2; VInt 3; VInt 4]]> ∅.

Definition world_nokey : world :=
  world_with (Coco.mk [img1] [ann1; ann_nokey] ∅)
    (<[py "d/images_DK/a.jpg" := FImage pixels1]> ∅).

(** Two images with their files, three annotations, one of them for an
    image that is not listed, and another top-level key. *)
Definition img2 : ImageRecord.t :=
  ImageRecord.mk 2 (py "images\b.png") (VInt 32) (VInt 16).

Definition ann2 : dict := <["image_id" := VInt 2]> (<["category_id" := VInt 7]> ∅).
Definition ann9 : dict := <["image_id" := VInt 9]> ∅.

Definition coco2 : Coco.t :=
  Coco.mk [img1; img2] [ann2; ann1; ann9; ann2]
    (<["info" := VDict [("year"%string, VInt 2024)]]> ∅).

Definition world2 : world :=
  world_with coco2
    (<[py "d/images_DK/a.jpg" := FImage pixels1]>
       (<[py "d/images_DK/b.png" := FImage [0; 255]]> ∅)).

(** The same input file, and no image. *)
Definition world_gone : world := world_with coco2 ∅.

(** The same files with other pixels, another size for one image, and
    another state of the generator. *)
Definition world2_other : world :=
  World ∅
    (<[coco_json_path := FJson coco2]>
       (<[py "d/images_DK/a.jpg" := FImage [1; 2; 3; 4; 5]]>
          (<[py "d/images_DK/b.png" := FImage [128; 127]]> ∅)))
    ∅ ∅ (fun n => Z.of_nat n # 3) 7 [].

(** The loaded data and the world when the loop starts. *)
Definition cd1 : coco_data := CocoData [img1] [0%nat] ∅.

Definition at_loop (w : world) : world :=
  (before_image coco_json_path output_dir sigma 0 w).2.

Definition final (w : world) : world :=
  (augment_coco_dataset coco_json_path output_dir sigma w).2.

Definition img_out : ImageRecord.t :=
  ImageRecord.mk 4200001 (py "images\a_augmented_noise.png") (VInt 100) (VInt 80).

Definition ann_out : dict := <["image_id" := VInt 4200001]> ann1.

(** The call of the first iteration, in the world where the loop starts. *)
Definition first_call (w : world) : result (option str * list loc) * world :=
  add_noise_and_update_annotations (image_path_of coco_json_path img1) [0%nat]
    (images_subdir coco_json_path output_dir) (1 + id_offset) sigma (at_loop w).

End Example.

(** * Properties *)

(** ** The path functions on examples *)

Example basename_ex : Path.basename (py "dataset/frames/frames_DK.json") = py "frames_DK.json".
Proof. reflexivity. Qed.

Example dirname_ex : Path.dirname (py "dataset/frames/frames_DK.json") = py "dataset/frames".
Proof. reflexivity. Qed.

Example dirname_root_ex : Path.dirname (py "//x") = py "//".
Proof. reflexivity. Qed.

Example splitext_ex : Path.splitext (py "a/b.c/frames.tar.gz") = (py "a/b.c/frames.tar", py ".gz").
Proof. reflexivity. Qed.

Example splitext_hidden_ex : Path.splitext (py "a/..bashrc") = (py "a/..bashrc", []).
Proof. reflexivity. Qed.

Example splitext_nodot_ex : Path.splitext (py "a.b/c") = (py "a.b/c", []).
Proof. reflexivity. Qed.

Example join_ex : Path.join3 (py "d") (py "images_DK") (py "/abs") = py "/abs".
Proof. reflexivity. Qed.

Example normpath_ex : Path.normpath (py "a//b/./c/../d/") = py "a/b/d".
Proof. reflexivity. Qed.

Example normpath_up_ex : Path.normpath (py "../../a/../../b") = py "../../../b".
Proof. reflexivity. Qed.

Example normpath_abs_ex : Path.normpath (py "//a/../../b") = py "//b".
Proof. reflexivity. Qed.

Example normpath_abs3_ex : Path.normpath (py "///a") = py "/a".
Proof. reflexivity. Qed.

Example from_neg_ex : Str.from (-2) (py "frames_DK") = py "DK" /\ Str.from (-2) (py "K") = py "K".
Proof. split; reflexivity. Qed.


(** ** The pixel arithmetic of lines 16-22 *)

Lemma astype_uint8_range x : 0 <= astype_uint8 x < 256.
Proof. unfold astype_uint8. apply Z.mod_pos_bound. lia. Qed.

Lemma astype_uint8_zero x : Qnum x = 0 -> astype_uint8 x = 0.
Proof. unfold astype_uint8. intros ->. reflexivity. Qed.

Lemma clip_uint8 x : Z.min 255 (Z.max 0 (x mod 256)) = x mod 256.
Proof. pose proof (Z.mod_pos_bound x 256). lia. Qed.

(** What the code computes: the sum modulo 256; the clip changes nothing. *)
Lemma noisy_image_array_wraps a samples :
  noisy_image_array a samples =
  zip_with (fun p x => (p + astype_uint8 x) mod 256) a samples.
Proof.
  unfold noisy_image_array, np_clip, uint8_add.
  revert samples. induction a as [|p a IH]; intros [|x samples]; simpl; try done.
  rewrite clip_uint8. f_equal. apply IH.
Qed.

Lemma noisy_image_array_uint8 a samples : uint8_array (noisy_image_array a samples).
Proof.
  rewrite noisy_image_array_wraps. unfold uint8_array.
  revert samples. induction a as [|p a IH]; intros [|x samples]; simpl; try constructor.
  - apply Z.mod_pos_bound. lia.
  - apply IH.
Qed.

Lemma noisy_image_array_zero a samples :
  uint8_array a ->
  length samples = length a ->
  Forall (fun x => Qnum x = 0) samples ->
  noisy_image_array a samples = a.
Proof.
  rewrite noisy_image_array_wraps. intros Ha. revert samples.
  induction Ha as [|p a Hp Ha IH]; intros [|x samples] Hlen Hs; simpl in *; try done.
  inversion Hs as [|? ? Hx Hs']; subst.
  rewrite (astype_uint8_zero x Hx), Z.add_0_r, Z.mod_small by lia.
  f_equal. apply IH; [lia | done].
Qed.

(** The samples drawn with a standard deviation equal to zero. *)
Lemma normal_samples_zero (scale : Q) (z : nat -> Q) (start size : nat) :
  (scale == 0)%Q ->
  Forall (fun x => Qnum x = 0)
         ((fun i => (0 + scale * z (start + i)%nat)%Q) <$> seq 0 size).
Proof.
  intros Hs. apply Forall_fmap, Forall_forall. intros i _. simpl.
  unfold Qeq in Hs. simpl in Hs. lia.
Qed.

(** C3: line 19 adds two [uint8] arrays, so the sum has wrapped before
    [np.clip] sees it: for the pixel 250 and the noise sample 10.0 the
    code yields 4, where the clipped sum [clip(250 + 10, 0, 255)] is 255.
    So does a call: for the pixels 3, 7, 250 and the samples -10, 0, 10
    (the fractions -20/2, 0/2, 20/2) it writes 249, 7, 4, where the clipped
    sums are 249, 7, 255. *)
Theorem uint8_sum_wraps_before_clip :
  noisy_image_array [250] [10 # 1] = [4] /\
  clipped_sum_spec [250] [10 # 1] = [255] /\
  samples_in Example.sigma Example.world_wrap 3 = [-20 # 2; 0 # 2; 20 # 2]%Q /\
  files (add_noise_and_update_annotations (py "a.jpg") [] (py "out") 1
           Example.sigma Example.world_wrap).2 !! py "out/a_augmented_noise.png"
  = Some (FImage [249; 7; 4]) /\
  clipped_sum_spec [3; 7; 250] (samples_in Example.sigma Example.world_wrap 3)
  = [249; 7; 255].
Proof. split_and!; vm_compute; reflexivity. Qed.

(** ** Reasoning about computations *)

Lemma bind_unfold {A B} (m : M A) (k : A -> M B) w :
  (m ≫= k) w = match m w with
               | (Ok a, w') => k a w'
               | (Raise e, w') => (Raise e, w')
               end.
Proof. reflexivity. Qed.

Lemma bind_inv {A B} (m : M A) (k : A -> M B) w r w' :
  (m ≫= k) w = (r, w') ->
  (exists a w1, m w = (Ok a, w1) /\ k a w1 = (r, w')) \/
  (exists e, m w = (Raise e, w') /\ r = Raise e).
Proof.
  rewrite bind_unfold. destruct (m w) as [[a|e] w1]; intros H.
  - left. eauto.
  - right. inversion H; subst. eauto.
Qed.

Lemma bind_ok_inv {A B} (m : M A) (k : A -> M B) w b w' :
  (m ≫= k) w = (Ok b, w') ->
  exists a w1, m w = (Ok a, w1) /\ k a w1 = (Ok b, w').
Proof.
  intros H. apply bind_inv in H as [H|(e & _ & H)]; [done | discriminate].
Qed.

Lemma bind_ok {A B} (m : M A) (k : A -> M B) w a w1 :
  m w = (Ok a, w1) -> (m ≫= k) w = k a w1.
Proof. intros H. by rewrite bind_unfold, H. Qed.

Lemma bind_raise {A B} (m : M A) (k : A -> M B) w e w1 :
  m w = (Raise e, w1) -> (m ≫= k) w = (Raise e, w1).
Proof. intros H. by rewrite bind_unfold, H. Qed.

Lemma heap_only_refl w : heap_only w w.
Proof. by destruct w. Qed.

Lemma heap_only_trans w1 w2 w3 : heap_only w1 w2 -> heap_only w2 w3 -> heap_only w1 w3.
Proof.
  unfold heap_only. intros H1 H2. rewrite H2 at 1. rewrite H1 at 1. by destruct w1.
Qed.

Lemma heap_only_set_heap f w : heap_only w (set_heap f w).
Proof. by destruct w. Qed.

Lemma preserved_refl h : preserved h h.
Proof. by intros l d. Qed.

Lemma preserved_trans h1 h2 h3 : preserved h1 h2 -> preserved h2 h3 -> preserved h1 h3.
Proof. intros H1 H2 l d Hl. eauto. Qed.

Lemma preserved_dom h h' l : preserved h h' -> l ∈ dom h -> l ∈ dom h'.
Proof. intros Hp [d Hd]%elem_of_dom. apply elem_of_dom. eauto. Qed.

Lemma preserved_total h h' l : preserved h h' -> l ∈ dom h -> h' !!! l = h !!! l.
Proof.
  intros Hp [d Hd]%elem_of_dom.
  by rewrite (lookup_total_correct _ _ _ Hd), (lookup_total_correct _ _ _ (Hp _ _ Hd)).
Qed.

(** ** The annotation objects *)

Lemma copy_then_set_heap (h : gmap loc dict) (l : loc) (k : string) (v : value) :
  let l' := fresh (dom h) in
  let h' := alter <[k := v]> l' (<[l' := h !!! l]> h) in
  preserved h h' /\ h' !! l' = Some (<[k := v]> (h !!! l)) /\ l' ∉ dom h.
Proof.
  intros l' h'. assert (Hfresh : l' ∉ dom h) by apply is_fresh.
  split_and!; [|by unfold h'; rewrite alter_insert_eq, lookup_insert_eq|done].
  intros l0 d Hd. unfold h'. rewrite alter_insert_eq, lookup_insert_ne; [done|].
  intros <-. apply Hfresh, elem_of_dom. eauto.
Qed.

Lemma Forall2_impl_left {A B} (P : A -> Prop) (R R' : A -> B -> Prop) l k :
  Forall P l -> Forall2 R l k ->
  (forall x y, P x -> R x y -> R' x y) ->
  Forall2 R' l k.
Proof.
  intros HP HR Himp. induction HR as [|x y l k Hxy HR IH]; constructor.
  - inversion HP; subst. auto.
  - inversion HP; subst. auto.
Qed.

Lemma update_annotations_cons a rest nid acc w :
  update_annotations (a :: rest) nid acc w =
  update_annotations rest nid (acc ++ [fresh (dom (heap w))])
    (set_heap (alter <["image_id" := VInt nid]> (fresh (dom (heap w))))
       (set_heap <[fresh (dom (heap w)) := heap w !!! a]> w)).
Proof. reflexivity. Qed.

(** The loop of lines 32-36 cannot fail.  It leaves every existing object
    as it was, and returns one new object per annotation, in order: the
    copy, with ["image_id"] set. *)
Lemma update_annotations_spec annotations nid acc w :
  exists new w',
    update_annotations annotations nid acc w = (Ok (acc ++ new), w') /\
    heap_only w w' /\
    preserved (heap w) (heap w') /\
    length new = length annotations /\
    NoDup new /\
    Forall (fun l => l ∉ dom (heap w)) new /\
    (Forall (fun l => l ∈ dom (heap w)) annotations ->
     Forall2 (fun l l' =>
                heap w' !! l' = Some (<["image_id" := VInt nid]> (heap w !!! l)))
             annotations new).
Proof.
  revert acc w. induction annotations as [|a rest IH]; intros acc w.
  - exists [], w. simpl. rewrite app_nil_r.
    split_and!; auto using heap_only_refl, preserved_refl, NoDup_nil_2.
  - pose proof (copy_then_set_heap (heap w) a "image_id" (VInt nid)) as (Hp & Hl & Hf).
    rewrite update_annotations_cons.
    set (l' := fresh (dom (heap w))) in *.
    set (w2 := set_heap (alter <["image_id" := VInt nid]> l')
                 (set_heap <[l' := heap w !!! a]> w)).
    destruct (IH (acc ++ [l']) w2) as (new & w' & Hrun & Hho & Hp' & Hlen & Hnd & Hfr & Hc).
    exists (l' :: new), w'. split_and!.
    + rewrite Hrun. by rewrite <- app_assoc.
    + eapply heap_only_trans; [|exact Hho]. unfold w2. by destruct w.
    + eapply preserved_trans; [exact Hp | exact Hp'].
    + simpl. lia.
    + apply NoDup_cons. split; [|done].
      intros Hin. rewrite Forall_forall in Hfr. apply (Hfr _ Hin).
      apply elem_of_dom. simpl. eauto.
    + constructor; [done|]. eapply Forall_impl; [exact Hfr|].
      intros l Hl' Hd. apply Hl'. eapply preserved_dom; [exact Hp|done].
    + intros Hall. inversion Hall as [|? ? Ha Hrest]; subst. constructor.
      * apply Hp'. exact Hl.
      * assert (Hrest' : Forall (fun l => l ∈ dom (heap w2)) rest).
        { eapply Forall_impl; [exact Hrest|]. intros l Hd.
          eapply preserved_dom; [exact Hp|done]. }
        eapply Forall2_impl_left; [exact Hrest | exact (Hc Hrest') |].
        intros l l0 Hd Hl0. simpl in Hl0.
        by rewrite (preserved_total _ _ _ Hp Hd) in Hl0.
Qed.

(** ** One call of [add_noise_and_update_annotations] *)

Section inject.
Variables (image_path : str) (annotations : list loc) (output_dir : str).
Variables (new_image_id : Z) (noise_factor : Q).

Local Abbreviation inject :=
  (add_noise_and_update_annotations image_path annotations output_dir
     new_image_id noise_factor).
Local Abbreviation target := (noisy_image_path image_path output_dir).
Local Abbreviation outcome_of :=
  (outcome image_path annotations output_dir new_image_id noise_factor).

Lemma Image_open_world path w r w' : Image_open path w = (r, w') -> w' = w.
Proof.
  unfold Image_open. intros H.
  repeat case_match; by inversion H.
Qed.

Lemma inject_outcome w : outcome_of w (inject w).1 (inject w).2.
Proof.
  unfold add_noise_and_update_annotations, try_except.
  rewrite bind_unfold.
  destruct (Image_open image_path w) as [[a|e] w1] eqn:Hopen;
    pose proof (Image_open_world _ _ _ _ Hopen) as ->.
  2: { destruct (decide (e = FileNotFoundError)) as [->|Hne].
       - simpl. by apply open_not_found.
       - destruct e; try done; simpl; by apply open_raises. }
  rewrite bind_unfold. unfold random_normal.
  destruct (Qlt_le_dec noise_factor 0) as [Hneg|Hpos].
  { simpl. by eapply negative_scale. }
  rewrite bind_unfold. unfold Image_save. simpl faults.
  fold target.
  destruct (faults w !! target) as [e|] eqn:Hfault.
  { destruct (decide (e = FileNotFoundError)) as [->|Hne].
    - simpl. by eapply save_not_found.
    - destruct e; try done; simpl; by eapply save_raises. }
  rewrite bind_unfold.
  match goal with
  | |- context [update_annotations _ _ _ ?w2] =>
      destruct (update_annotations_spec annotations new_image_id [] w2)
        as (new & w' & Hrun & Hho & Hp & Hlen & Hnd & Hfr & Hc);
      rewrite Hrun
  end.
  simpl. rewrite Hho. simpl in *.
  eapply saved; eauto.
Qed.

Lemma inject_inv w r w' : inject w = (r, w') -> outcome_of w r w'.
Proof. intros H. pose proof (inject_outcome w) as Ho. by rewrite H in Ho. Qed.

End inject.

(** ** The selection of lines 80-82 *)

Lemma dict_getitem_inv l k w r w' :
  dict_getitem l k w = (r, w') ->
  w' = w /\
  ((exists v, (heap w !!! l) !! k = Some v /\ r = Ok v) \/
   ((heap w !!! l) !! k = None /\ r = Raise KeyError)).
Proof.
  unfold dict_getitem. destruct ((heap w !!! l) !! k) as [v|]; intros H;
    inversion H; subst; eauto.
Qed.

Lemma select_annotations_world all image_id w r w' :
  select_annotations all image_id w = (r, w') -> w' = w.
Proof.
  revert r w'. induction all as [|l rest IH]; intros r w' H; simpl in H.
  - by inversion H.
  - apply bind_inv in H as [(v & w1 & Hget & H)|(e & Hget & _)].
    + apply dict_getitem_inv in Hget as [-> _].
      apply bind_inv in H as [(sel & w2 & Hrest & H)|(e & Hrest & _)].
      * apply IH in Hrest as ->. by inversion H.
      * by apply IH in Hrest.
    + by apply dict_getitem_inv in Hget as [-> _].
Qed.

Lemma select_annotations_ok all image_id w :
  Forall (has_image_id (heap w)) all ->
  select_annotations all image_id w
  = (Ok (List.filter (image_id_is (heap w) image_id) all), w).
Proof.
  induction 1 as [|l rest [v Hv] _ IH]; [done|].
  cbn [select_annotations List.filter]. rewrite bind_unfold.
  unfold dict_getitem, image_id_is at 1. rewrite Hv.
  rewrite bind_unfold, IH. by destruct (eq_int v image_id).
Qed.

Lemma select_annotations_inv all image_id w sel w' :
  select_annotations all image_id w = (Ok sel, w') ->
  w' = w /\
  Forall (has_image_id (heap w)) all /\
  sel = List.filter (image_id_is (heap w) image_id) all.
Proof.
  intros H. pose proof (select_annotations_world _ _ _ _ _ H) as ->.
  split; [done|].
  assert (Hall : Forall (has_image_id (heap w)) all).
  { revert sel H. induction all as [|l rest IH]; intros sel H; [constructor|].
    simpl in H. apply bind_ok_inv in H as (v & w1 & Hget & H).
    apply dict_getitem_inv in Hget as [-> [(v' & Hv & _)|[_ ?]]]; [|done].
    apply bind_ok_inv in H as (sel' & w2 & Hrest & _).
    pose proof (select_annotations_world _ _ _ _ _ Hrest) as ->.
    constructor; [by exists v' | by eapply IH]. }
  split; [done|].
  rewrite (select_annotations_ok _ _ _ Hall) in H. by inversion H.
Qed.

Lemma filter_sublist {A} (f : A -> bool) (l : list A) : sublist (List.filter f l) l.
Proof.
  induction l as [|x l IH]; simpl; [constructor|].
  destruct (f x); by constructor.
Qed.

Lemma elem_of_filter_bool {A} (f : A -> bool) (l : list A) x :
  x ∈ List.filter f l <-> x ∈ l /\ f x = true.
Proof. rewrite !list_elem_of_In. apply filter_In. Qed.

(** ** One iteration of the loop over the images *)

Section loop.
Variables (coco_json_path output_dir : str) (noise_factor : Q).
Variable (all_annotations : list loc).

Local Abbreviation subdir := (images_subdir coco_json_path output_dir).
Local Abbreviation body :=
  (process_image coco_json_path output_dir noise_factor all_annotations).
Local Abbreviation loop :=
  (process_images coco_json_path output_dir noise_factor all_annotations).

Lemma process_image_inv image_info acc w acc' w' :
  body image_info acc w = (Ok acc', w') ->
  let image_id := ImageRecord.id image_info in
  let sel := List.filter (image_id_is (heap w) image_id) all_annotations in
  exists r w1,
    select_annotations all_annotations image_id w = (Ok sel, w) /\
    add_noise_and_update_annotations (image_path_of coco_json_path image_info)
      sel subdir (image_id + id_offset) noise_factor w = (Ok r, w1) /\
    ((exists new, r = (Some (noisy_image_path
                               (image_path_of coco_json_path image_info) subdir), new) /\
                  acc' = (acc.1 ++ [output_record coco_json_path output_dir image_info],
                          acc.2 ++ new) /\
                  w' = w1) \/
     (r = (None, []) /\ acc' = acc /\
      w' = set_stdout (fun out => out ++ [removing_msg image_id]) w1)).
Proof.
  intros H image_id sel. unfold process_image in H.
  apply bind_ok_inv in H as (sel' & w0 & Hsel & H).
  apply select_annotations_inv in Hsel as (-> & Hall & ->).
  apply bind_ok_inv in H as (r & w1 & Hinj & H).
  exists r, w1. split; [by apply select_annotations_ok|]. split; [done|].
  pose proof (inject_inv _ _ _ _ _ _ _ _ Hinj) as Ho.
  inversion Ho; subst; simpl in H.
  - right. unfold mbind, M_bind, print in H. by inversion H.
  - right. unfold mbind, M_bind, print in H. by inversion H.
  - left. eexists. split; [done|]. unfold mret, M_ret in H. by inversion H.
Qed.

Lemma process_images_app imgs1 imgs2 acc w :
  loop (imgs1 ++ imgs2) acc w =
  (acc1 ← loop imgs1 acc; loop imgs2 acc1) w.
Proof.
  revert acc w. induction imgs1 as [|r imgs1 IH]; intros acc w; [done|].
  simpl. rewrite !bind_unfold.
  destruct (body r acc w) as [[acc1|e] w1]; [|done].
  rewrite IH. by rewrite bind_unfold.
Qed.

End loop.

(** ** The whole loop *)

Lemma outcome_heap ip anns od nid nf w r w' :
  outcome ip anns od nid nf w r w' ->
  preserved (heap w) (heap w') /\
  (forall new, r = Ok (None, new) -> heap w' = heap w /\ files w' = files w).
Proof.
  intros Ho. inversion Ho; subst; simpl; split;
    try apply preserved_refl; try done.
Qed.

Lemma Forall2_elem_of_right {A B} (R : A -> B -> Prop) l k y :
  Forall2 R l k -> y ∈ k -> exists x, x ∈ l /\ R x y.
Proof.
  induction 1 as [|x y' l k Hxy _ IH]; intros Hy.
  - by apply not_elem_of_nil in Hy.
  - apply elem_of_cons in Hy as [->|Hy].
    + exists x. split; [left | done].
    + destruct (IH Hy) as (x' & Hx' & HR). exists x'. split; [by right | done].
Qed.

Section loop_spec.
Variables (coco_json_path output_dir : str) (noise_factor : Q).
Variable (all_annotations : list loc).

Local Abbreviation loop :=
  (process_images coco_json_path output_dir noise_factor all_annotations).
Local Abbreviation out_rec := (output_record coco_json_path output_dir).

Lemma image_id_is_preserved h h' k l :
  preserved h h' -> l ∈ dom h -> image_id_is h' k l = image_id_is h k l.
Proof. intros Hp Hl. unfold image_id_is. by rewrite (preserved_total _ _ _ Hp Hl). Qed.

Lemma process_images_spec imgs acc w acc' w' :
  Forall (fun l => l ∈ dom (heap w)) all_annotations ->
  loop imgs acc w = (Ok acc', w') ->
  exists new_imgs new_anns,
    acc' = (acc.1 ++ new_imgs, acc.2 ++ new_anns) /\
    preserved (heap w) (heap w') /\
    new_imgs `sublist_of` (out_rec <$> imgs) /\
    Forall (derived coco_json_path output_dir all_annotations
              (heap w) (heap w') imgs new_imgs) new_anns.
Proof.
  revert acc w. induction imgs as [|r rest IH]; intros acc w Hall H.
  { simpl in H. inversion H; subst. exists [], [].
    rewrite !app_nil_r. split_and!; [by destruct acc' | apply preserved_refl | done | done]. }
  simpl in H. apply bind_ok_inv in H as (acc1 & w1 & Hbody & Hrest).
  apply process_image_inv in Hbody as (res & w0 & Hsel & Hinj & Hcase).
  pose proof (inject_inv _ _ _ _ _ _ _ _ Hinj) as Ho.
  pose proof (outcome_heap _ _ _ _ _ _ _ _ Ho) as [Hp0 Hnone].
  assert (Hp1 : preserved (heap w) (heap w1)).
  { destruct Hcase as [(new & _ & _ & ->)|(_ & _ & ->)]; done. }
  assert (Hall1 : Forall (fun l => l ∈ dom (heap w1)) all_annotations).
  { eapply Forall_impl; [exact Hall|]. intros l. by apply preserved_dom. }
  destruct (IH _ _ Hall1 Hrest) as (ni & na & -> & Hp' & Hsub & Hder).
  assert (Hder' : Forall (derived coco_json_path output_dir all_annotations
                            (heap w) (heap w') (r :: rest) ni) na).
  { eapply Forall_impl; [exact Hder|].
    intros l' (r2 & l & Hr2 & Hout & Hl & Hid & Hcopy).
    assert (Hd : l ∈ dom (heap w)) by (rewrite Forall_forall in Hall; auto).
    exists r2, l. split_and!; [by right | done | done | |].
    - by rewrite <- (image_id_is_preserved _ _ _ _ Hp1 Hd).
    - by rewrite <- (preserved_total _ _ _ Hp1 Hd). }
  destruct Hcase as [(new & -> & -> & ->)|(-> & -> & ->)].
  - exists (out_rec r :: ni), (new ++ na). simpl. rewrite <- !app_assoc. simpl.
    split_and!; [done | by eapply preserved_trans | by apply sublist_skip |].
    apply Forall_app. split.
    + inversion Ho as [| | | | |a new' h' Hopen Hpos Hfault Hpres Hlen Hnd Hfr Hc]; subst.
      assert (Hseld : Forall (fun l => l ∈ dom (heap w))
                (List.filter (image_id_is (heap w) (ImageRecord.id r)) all_annotations)).
      { apply Forall_forall. intros l [Hl _]%elem_of_filter_bool.
        rewrite Forall_forall in Hall. auto. }
      specialize (Hc Hseld). apply Forall_forall. intros l' Hl'.
      destruct (Forall2_elem_of_right _ _ _ _ Hc Hl') as (l & [Hl Hid]%elem_of_filter_bool & Hcopy).
      exists r, l. split_and!; [left | left | done | done |].
      apply Hp'. exact Hcopy.
    + eapply Forall_impl; [exact Hder'|].
      intros l' (r2 & l & ? & ? & ? & ? & ?). exists r2, l.
      split_and!; [done | by right | done | done | done].
  - exists ni, na. split_and!; [done | by eapply preserved_trans | by apply sublist_cons | done].
Qed.

End loop_spec.

(** ** Loading and writing the annotation file *)

Lemma alloc_dicts_spec ds h ls h' :
  alloc_dicts ds h = (ls, h') ->
  preserved h h' /\
  Forall2 (fun l d => h' !! l = Some d) ls ds /\
  Forall (fun l => l ∈ dom h') ls.
Proof.
  revert h ls h'. induction ds as [|d ds IH]; intros h ls h' H; simpl in H.
  - inversion H; subst. split_and!; auto using preserved_refl.
  - destruct (alloc_dicts ds (<[fresh (dom h) := d]> h)) as [ls0 h0] eqn:Hrec.
    inversion H; subst. destruct (IH _ _ _ Hrec) as (Hp & Hc & Hd).
    assert (Hnew : h' !! fresh (dom h) = Some d) by (apply Hp; apply lookup_insert_eq).
    split_and!.
    + intros l d0 Hl. apply Hp. rewrite lookup_insert_ne; [done|].
      intros <-. apply (is_fresh (dom h)), elem_of_dom. eauto.
    + by constructor.
    + constructor; [|done]. apply elem_of_dom. eauto.
Qed.

Lemma json_load_inv path w cd w' :
  json_load path w = (Ok cd, w') ->
  exists c,
    files w !! path = Some (FJson c) /\
    cd_images cd = Coco.images c /\
    cd_others cd = Coco.others c /\
    Forall2 (fun l d => heap w' !! l = Some d) (cd_annotations cd) (Coco.annotations c) /\
    Forall (fun l => l ∈ dom (heap w')) (cd_annotations cd) /\
    heap_only w w'.
Proof.
  unfold json_load. intros H.
  destruct (faults w !! path); [by inversion H|].
  destruct (files w !! path) as [[a|c|]|]; try by inversion H.
  destruct (alloc_dicts (Coco.annotations c) (heap w)) as [ls h] eqn:Ha.
  inversion H; subst. apply alloc_dicts_spec in Ha as (_ & Hc & Hd).
  exists c. simpl. split_and!; first [done | apply heap_only_set_heap].
Qed.

Lemma makedirs_inv path w w' :
  makedirs path w = (Ok tt, w') -> w' = set_dirs (fun d => {[path]} ∪ d) w.
Proof. unfold makedirs. destruct (faults w !! path); intros H; by inversion H. Qed.

Lemma json_dump_inv path c w w' :
  json_dump path c w = (Ok tt, w') ->
  w' = set_files
         <[path := FJson (Coco.mk (cd_images c)
                            ((fun l => heap w !!! l) <$> cd_annotations c)
                            (cd_others c))]> w.
Proof. unfold json_dump. destruct (faults w !! path); intros H; by inversion H. Qed.

(** ** The run up to an iteration of the loop *)

Section run.
Variables (coco_json_path output_dir : str) (noise_factor : Q).

Local Abbreviation loop :=
  (process_images coco_json_path output_dir noise_factor).
Local Abbreviation out_path := (new_coco_json_path coco_json_path output_dir).

Lemma augment_split k w :
  augment_coco_dataset coco_json_path output_dir noise_factor w =
  (st ← before_image coco_json_path output_dir noise_factor k;
   from_image coco_json_path output_dir noise_factor k st) w.
Proof.
  unfold augment_coco_dataset, before_image, from_image.
  rewrite !bind_unfold.
  destruct (json_load coco_json_path w) as [[cd|e] w1]; [|done].
  rewrite !bind_unfold.
  destruct (makedirs output_dir w1) as [[[]|e] w2]; [|done].
  rewrite !bind_unfold.
  destruct (makedirs _ w2) as [[[]|e] w3]; [|done].
  rewrite <- (take_drop k (cd_images cd)) at 1.
  rewrite !bind_unfold, process_images_app, !bind_unfold.
  destruct (loop _ (take k _) _ w3) as [[acc|e] w4]; [|done].
  simpl. by rewrite !bind_unfold.
Qed.

Lemma before_image_inv k w cd acc w1 :
  before_image coco_json_path output_dir noise_factor k w = (Ok (cd, acc), w1) ->
  exists c,
    files w !! coco_json_path = Some (FJson c) /\
    cd_images cd = Coco.images c /\
    cd_others cd = Coco.others c /\
    Forall (fun l => l ∈ dom (heap w1)) (cd_annotations cd) /\
    exists w0,
      Forall2 (fun l d => heap w0 !! l = Some d) (cd_annotations cd) (Coco.annotations c) /\
      Forall (fun l => l ∈ dom (heap w0)) (cd_annotations cd) /\
      loop (cd_annotations cd) (take k (cd_images cd)) ([], []) w0 = (Ok acc, w1).
Proof.
  unfold before_image. intros H.
  apply bind_ok_inv in H as (cd' & w2 & Hload & H).
  apply bind_ok_inv in H as ([] & w3 & Hmk1 & H).
  apply bind_ok_inv in H as ([] & w4 & Hmk2 & H).
  apply bind_ok_inv in H as (acc' & w5 & Hloop & H).
  inversion H; subst.
  apply json_load_inv in Hload as (c & Hfile & Himgs & Hoth & Hc & Hd & _).
  apply makedirs_inv in Hmk1 as ->. apply makedirs_inv in Hmk2 as ->.
  exists c. split_and!; try done.
  - destruct (fun Hd' => process_images_spec _ _ _ _ _ _ _ _ _ Hd' Hloop)
      as (_ & _ & _ & Hp & _); [exact Hd|].
    eapply Forall_impl; [exact Hd|]. intros l. by apply preserved_dom.
  - eexists. split_and!; [| |exact Hloop]; done.
Qed.

End run.

(** ** The annotation file the program writes *)

Section output.
Variables (coco_json_path output_dir : str) (noise_factor : Q).

Local Abbreviation augment :=
  (augment_coco_dataset coco_json_path output_dir noise_factor).
Local Abbreviation out_path := (new_coco_json_path coco_json_path output_dir).
Local Abbreviation out_rec := (output_record coco_json_path output_dir).

Lemma augment_inv w w' :
  augment w = (Ok tt, w') ->
  exists c cd w0 acc w1,
    files w !! coco_json_path = Some (FJson c) /\
    cd_images cd = Coco.images c /\
    cd_others cd = Coco.others c /\
    Forall2 (fun l d => heap w0 !! l = Some d) (cd_annotations cd) (Coco.annotations c) /\
    Forall (fun l => l ∈ dom (heap w0)) (cd_annotations cd) /\
    process_images coco_json_path output_dir noise_factor (cd_annotations cd)
      (cd_images cd) ([], []) w0 = (Ok acc, w1) /\
    w' = set_files
           <[out_path := FJson (Coco.mk acc.1 ((fun l => heap w1 !!! l) <$> acc.2)
                                  (cd_others cd))]> w1.
Proof.
  unfold augment_coco_dataset. intros H.
  apply bind_ok_inv in H as (cd & w2 & Hload & H).
  apply bind_ok_inv in H as ([] & w3 & Hmk1 & H).
  apply bind_ok_inv in H as ([] & w4 & Hmk2 & H).
  apply bind_ok_inv in H as (acc & w5 & Hloop & H).
  apply json_load_inv in Hload as (c & Hfile & Himgs & Hoth & Hc & Hd & _).
  apply makedirs_inv in Hmk1 as ->. apply makedirs_inv in Hmk2 as ->.
  apply json_dump_inv in H as ->.
  exists c, cd. eexists. exists acc, w5.
  split_and!; [done | done | done | | | exact Hloop | done]; done.
Qed.

Lemma derived_remapped c all h h' imgs_out l' :
  Forall2 (fun l d => h !! l = Some d) all (Coco.annotations c) ->
  derived coco_json_path output_dir all h h' (Coco.images c) imgs_out l' ->
  remapped_from coco_json_path output_dir c imgs_out (h' !!! l').
Proof.
  intros Hc (r & l & Hr & Hout & Hl & Hid & Hcopy).
  destruct (list_elem_of_lookup_1 _ _ Hl) as [i Hi].
  destruct (Forall2_lookup_l _ _ _ _ _ Hc Hi) as (d & Hd & Hld).
  unfold image_id_is in Hid.
  rewrite (lookup_total_correct _ _ _ Hld) in Hid, Hcopy.
  destruct (d !! "image_id") as [v|] eqn:Hv; [|done].
  exists r, d, v. split_and!; try done.
  - by eapply list_elem_of_lookup_2.
  - by apply lookup_total_correct.
Qed.

(** A run that completes writes the annotation file.  Its images are
    records made for images of the input, in the order of the input; its
    annotations are remapped annotations of the input; the other
    top-level fields are those of the input. *)
Lemma augment_output w w' c :
  files w !! coco_json_path = Some (FJson c) ->
  augment w = (Ok tt, w') ->
  exists out,
    files w' !! out_path = Some (FJson out) /\
    Coco.others out = Coco.others c /\
    Coco.images out `sublist_of` (out_rec <$> Coco.images c) /\
    Forall (remapped_from coco_json_path output_dir c (Coco.images out))
           (Coco.annotations out).
Proof.
  intros Hfile H.
  apply augment_inv in H as (c' & cd & w0 & acc & w1 & Hfile' & Himgs & Hoth & Hc & Hd & Hloop & ->).
  rewrite Hfile in Hfile'. inversion Hfile'; subst c'.
  destruct (process_images_spec _ _ _ _ _ _ _ _ _ Hd Hloop)
    as (ni & na & -> & Hp & Hsub & Hder).
  eexists. split; [apply lookup_insert_eq|]. simpl.
  split_and!; [done | by rewrite <- Himgs |].
  apply Forall_fmap. eapply Forall_impl; [exact Hder|].
  intros l' Hl'. simpl. rewrite Himgs in Hl'.
  by eapply derived_remapped.
Qed.

End output.

Lemma count_id_one (l : list ImageRecord.t) (r : ImageRecord.t) :
  NoDup (ImageRecord.id <$> l) -> r ∈ l ->
  length (List.filter (fun r' => ImageRecord.id r' =? ImageRecord.id r) l) = 1%nat.
Proof.
  induction l as [|x l IH]; intros Hnd Hr.
  - by apply not_elem_of_nil in Hr.
  - rewrite fmap_cons in Hnd. apply NoDup_cons in Hnd as [Hx Hnd]. simpl.
    destruct (decide (ImageRecord.id x = ImageRecord.id r)) as [Heq|Hne].
    + rewrite (proj2 (Z.eqb_eq _ _) Heq). simpl. f_equal.
      apply length_zero_iff_nil.
      destruct (List.filter _ l) as [|y ys] eqn:Hf; [done|].
      assert (Hy : y ∈ List.filter (fun r' => ImageRecord.id r' =? ImageRecord.id r) l)
        by (rewrite Hf; left).
      apply elem_of_filter_bool in Hy as [Hy Hid%Z.eqb_eq].
      exfalso. apply Hx. rewrite Heq, <- Hid. apply list_elem_of_fmap. eauto.
    + rewrite (proj2 (Z.eqb_neq _ _) Hne). apply IH; [done|].
      apply elem_of_cons in Hr as [->|Hr]; done.
Qed.

Global Instance id_offset_inj : Inj (=) (=) (fun k : Z => k + id_offset).
Proof. intros x y H. lia. Qed.

Lemma output_ids cj od (imgs : list ImageRecord.t) :
  ImageRecord.id <$> (output_record cj od <$> imgs)
  = (fun k => k + id_offset) <$> (ImageRecord.id <$> imgs).
Proof. rewrite <- !list_fmap_compose. by apply list_fmap_ext. Qed.

(** C1: when the image ids of the input are pairwise distinct, every
    annotation of the written file has an integer ["image_id"] that is the
    id of exactly one image of the written file. *)
Theorem referential_integrity coco_json_path output_dir noise_factor w w' c :
  files w !! coco_json_path = Some (FJson c) ->
  NoDup (ImageRecord.id <$> Coco.images c) ->
  augment_coco_dataset coco_json_path output_dir noise_factor w = (Ok tt, w') ->
  exists out,
    files w' !! new_coco_json_path coco_json_path output_dir = Some (FJson out) /\
    forall ann, ann ∈ Coco.annotations out ->
      exists k, ann !! "image_id" = Some (VInt k) /\
        length (List.filter (fun r => ImageRecord.id r =? k) (Coco.images out)) = 1%nat.
Proof.
  intros Hfile Hnd Hrun.
  destruct (augment_output _ _ _ _ _ _ Hfile Hrun) as (out & Hout & _ & Hsub & Hanns).
  exists out. split; [done|]. intros ann Hann.
  rewrite Forall_forall in Hanns.
  destruct (Hanns _ Hann) as (r & d & v & Hr & Hrec & Hd & Hv & Heq & ->).
  exists (ImageRecord.id r + id_offset). split; [apply lookup_insert_eq|].
  apply (count_id_one _ (output_record coco_json_path output_dir r)); [|done].
  eapply sublist_NoDup; [|exact (fmap_sublist ImageRecord.id _ _ Hsub)].
  rewrite output_ids. exact (NoDup_fmap_2 (fun k : Z => k + id_offset) _ Hnd).
Qed.

(** ** Claims about [add_noise_and_update_annotations] *)

(** What a call does to the heap. *)
Lemma inject_frame image_path annotations output_dir new_image_id noise_factor w r w' :
  add_noise_and_update_annotations image_path annotations output_dir new_image_id
    noise_factor w = (r, w') ->
  preserved (heap w) (heap w') /\
  (forall p new, r = Ok (Some p, new) ->
     NoDup new /\
     (forall l', l' ∈ new -> heap w !! l' = None) /\
     (Forall (fun l => is_Some (heap w !! l)) annotations ->
      Forall2 (fun l l' =>
                 exists d, heap w !! l = Some d /\ heap w' !! l = Some d /\
                           heap w' !! l' = Some (<["image_id" := VInt new_image_id]> d))
              annotations new)).
Proof.
  intros H. apply inject_inv in H as Ho.
  pose proof (outcome_heap _ _ _ _ _ _ _ _ Ho) as [Hp _]. split; [exact Hp|].
  intros p new ->.
  inversion Ho as [| | | | |a new' h' Hopen Hpos Hfault Hpres Hlen Hnd Hfr Hc]; subst.
  split_and!; [done | |].
  - intros l' Hl'. rewrite Forall_forall in Hfr. by apply not_elem_of_dom, Hfr.
  - intros Hall.
    assert (Hd : Forall (fun l => l ∈ dom (heap w)) annotations).
    { eapply Forall_impl; [exact Hall|]. intros l. by rewrite elem_of_dom. }
    eapply Forall2_impl_left; [exact Hall | exact (Hc Hd) |].
    intros l l' [d Hl] Hcopy. exists d. split_and!; [done | by apply Hpres |].
    simpl. by rewrite Hcopy, (lookup_total_correct _ _ _ Hl).
Qed.

(** C10: a call leaves every dict object that existed before it as it
    was, whatever the result, so the annotations it was given keep their
    ["image_id"] and every other key; the objects it returns did not exist
    before, are pairwise distinct and are none of the annotations given,
    and each holds the keys and values of its original with ["image_id"]
    set. *)
Theorem annotations_not_mutated image_path annotations output_dir new_image_id
    noise_factor w r w' :
  add_noise_and_update_annotations image_path annotations output_dir new_image_id
    noise_factor w = (r, w') ->
  (forall l d, heap w !! l = Some d -> heap w' !! l = Some d) /\
  (forall l d key, l ∈ annotations -> heap w !! l = Some d ->
     (heap w' !!! l) !! key = d !! key) /\
  (forall p new, r = Ok (p, new) ->
     NoDup new /\
     (forall l', l' ∈ new -> heap w !! l' = None) /\
     (Forall (fun l => is_Some (heap w !! l)) annotations ->
      (forall l', l' ∈ new -> l' ∉ annotations) /\
      (is_Some p ->
       Forall2 (fun l l' =>
                  exists d, heap w !! l = Some d /\ heap w' !! l = Some d /\
                            heap w' !! l' = Some (<["image_id" := VInt new_image_id]> d))
               annotations new))).
Proof.
  intros H. destruct (inject_frame _ _ _ _ _ _ _ _ H) as [Hp Hnew].
  split; [exact Hp|]. split.
  { intros l d key _ Hl. by rewrite (lookup_total_correct _ _ _ (Hp _ _ Hl)). }
  intros p new ->. destruct p as [p|].
  - destruct (Hnew _ _ eq_refl) as (Hnd & Hfresh & Hcopy).
    split_and!; [done | done |]. intros Hall. split; [|intros _; by apply Hcopy].
    intros l' Hl' Hin. rewrite Forall_forall in Hall.
    destruct (Hall _ Hin) as [d Hd]. rewrite (Hfresh _ Hl') in Hd. discriminate.
  - apply inject_inv in H. assert (new = []) as -> by (by inversion H).
    split_and!; [constructor | by intros l' ?%not_elem_of_nil |].
    intros _. split; [by intros l' ?%not_elem_of_nil | by intros [? [=]]].
Qed.


(** C6: with a standard deviation equal to zero, the array written for an
    image that opens is the pixel array of the image. *)
Theorem zero_noise_is_identity image_path annotations output_dir new_image_id
    noise_factor w pixels :
  (noise_factor == 0)%Q ->
  Image_open image_path w = (Ok pixels, w) ->
  uint8_array pixels ->
  faults w !! noisy_image_path image_path output_dir = None ->
  noisy_image_array pixels (samples_in noise_factor w (length pixels)) = pixels /\
  exists new w',
    add_noise_and_update_annotations image_path annotations output_dir new_image_id
      noise_factor w = (Ok (Some (noisy_image_path image_path output_dir), new), w') /\
    files w' !! noisy_image_path image_path output_dir = Some (FImage pixels).
Proof.
  intros Hzero Hopen Hpix Hfault.
  assert (Hid : noisy_image_array pixels (samples_in noise_factor w (length pixels)) = pixels).
  { apply noisy_image_array_zero; [done | |].
    - unfold samples_in. by rewrite length_fmap, length_seq.
    - by apply normal_samples_zero. }
  split; [done|].
  destruct (add_noise_and_update_annotations image_path annotations output_dir
              new_image_id noise_factor w) as [r w'] eqn:H.
  apply inject_inv in H as Ho.
  inversion Ho; subst; try congruence.
  - exfalso. rewrite Hzero in *. by eapply Qlt_irrefl.
  - replace a with pixels in * by congruence.
    do 2 eexists. split; [done|]. simpl. rewrite Hid. apply lookup_insert_eq.
Qed.

(** ** Claims about the loop of [augment_coco_dataset] *)

(** C9: in an iteration, the comprehension selects the annotations whose
    ["image_id"] equals the id of the image, all of them and no other, in
    the order of the full sequence; when the image survives, the
    annotations appended are, in that order, copies of the selected ones
    that carry the new id under ["image_id"] and agree with the original
    on every other key, and the originals are as they were. *)
Theorem selected_annotations_copied coco_json_path output_dir noise_factor
    all_annotations image_info acc w acc' w' :
  Forall (fun l => is_Some (heap w !! l)) all_annotations ->
  process_image coco_json_path output_dir noise_factor all_annotations image_info acc w
    = (Ok acc', w') ->
  let image_id := ImageRecord.id image_info in
  exists selected,
    select_annotations all_annotations image_id w = (Ok selected, w) /\
    selected `sublist_of` all_annotations /\
    (forall l, l ∈ selected <->
               l ∈ all_annotations /\ image_id_is (heap w) image_id l = true) /\
    (acc' = acc \/
     exists new,
       acc' = (acc.1 ++ [output_record coco_json_path output_dir image_info],
               acc.2 ++ new) /\
       Forall2 (fun l l' =>
                  exists d d',
                    heap w !! l = Some d /\ heap w' !! l = Some d /\
                    heap w' !! l' = Some d' /\
                    d' !! "image_id" = Some (VInt (image_id + id_offset)) /\
                    forall key, key <> "image_id" -> d' !! key = d !! key)
               selected new).
Proof.
  intros Hall H image_id.
  apply process_image_inv in H as (r & w1 & Hsel & Hinj & Hcase).
  eexists. split; [exact Hsel|].
  split; [apply filter_sublist|]. split; [intros l; apply elem_of_filter_bool|].
  destruct Hcase as [(new & -> & -> & ->)|(_ & -> & _)]; [right | by left].
  exists new. split; [done|].
  destruct (inject_frame _ _ _ _ _ _ _ _ Hinj) as [_ Hnew].
  destruct (Hnew _ _ eq_refl) as (_ & _ & Hcopy).
  assert (Hsel' : Forall (fun l => is_Some (heap w !! l))
            (List.filter (image_id_is (heap w) image_id) all_annotations)).
  { apply Forall_forall. intros l [Hl _]%elem_of_filter_bool.
    rewrite Forall_forall in Hall. auto. }
  eapply Forall2_impl; [exact (Hcopy Hsel')|].
  intros l l' (d & Hl & Hl1 & Hl'). exists d. eexists.
  split_and!; [done | done | exact Hl' | apply lookup_insert_eq |].
  intros key Hkey. by apply lookup_insert_ne.
Qed.



Section steps.
Variables (coco_json_path output_dir : str) (noise_factor : Q).

Local Abbreviation body :=
  (process_image coco_json_path output_dir noise_factor).
Local Abbreviation loop :=
  (process_images coco_json_path output_dir noise_factor).
Local Abbreviation out_path := (new_coco_json_path coco_json_path output_dir).

(** The run from the [k]-th image on: its iteration, the loop over the
    remaining images, and the writing of the file. *)
Lemma from_image_step k cd acc w1 image_info w' :
  cd_images cd !! k = Some image_info ->
  from_image coco_json_path output_dir noise_factor k (cd, acc) w1 = (Ok tt, w') ->
  exists acc1 w2 acc' w3,
    body (cd_annotations cd) image_info acc w1 = (Ok acc1, w2) /\
    loop (cd_annotations cd) (drop (S k) (cd_images cd)) acc1 w2 = (Ok acc', w3) /\
    from_image coco_json_path output_dir noise_factor (S k) (cd, acc1) w2 = (Ok tt, w') /\
    w' = set_files
           <[out_path := FJson (Coco.mk acc'.1 ((fun l => heap w3 !!! l) <$> acc'.2)
                                  (cd_others cd))]> w3.
Proof.
  intros Hk H. unfold from_image in H. simpl in H.
  rewrite (drop_S _ _ _ Hk) in H.
  apply bind_ok_inv in H as (acc' & w3 & Hloop & Hdump).
  simpl in Hloop. apply bind_ok_inv in Hloop as (acc1 & w2 & Hbody & Hrest).
  exists acc1, w2, acc', w3. split_and!; [done | done | |].
  - unfold from_image. simpl. by rewrite (bind_ok _ _ _ _ _ Hrest).
  - by apply json_dump_inv in Hdump.
Qed.

(** The iteration for an image that survives. *)
Lemma process_image_survives all image_info acc w sel p new w' :
  select_annotations all (ImageRecord.id image_info) w = (Ok sel, w) ->
  add_noise_and_update_annotations (image_path_of coco_json_path image_info) sel
    (images_subdir coco_json_path output_dir)
    (ImageRecord.id image_info + id_offset) noise_factor w = (Ok (Some p, new), w') ->
  body all image_info acc w
  = (Ok (acc.1 ++ [noisy_image_info image_info (ImageRecord.id image_info + id_offset) p],
         acc.2 ++ new), w').
Proof.
  intros Hsel Hinj. unfold process_image.
  by rewrite (bind_ok _ _ _ _ _ Hsel), (bind_ok _ _ _ _ _ Hinj).
Qed.

(** The iteration for an image that does not. *)
Lemma process_image_dropped all image_info acc w sel w' :
  select_annotations all (ImageRecord.id image_info) w = (Ok sel, w) ->
  add_noise_and_update_annotations (image_path_of coco_json_path image_info) sel
    (images_subdir coco_json_path output_dir)
    (ImageRecord.id image_info + id_offset) noise_factor w = (Ok (None, []), w') ->
  body all image_info acc w
  = (Ok acc, set_stdout (fun out => out ++ [removing_msg (ImageRecord.id image_info)]) w').
Proof.
  intros Hsel Hinj. unfold process_image.
  by rewrite (bind_ok _ _ _ _ _ Hsel), (bind_ok _ _ _ _ _ Hinj).
Qed.

End steps.

(** C2: when the loop reaches an image which then survives (the call
    returns a path), the written file has, after the records of the
    earlier images, the record made for that image, whose id is the
    original id plus 4200000, with the original width and height; and it
    has, in one block, one annotation per selected annotation of the
    image, each the original with ["image_id"] set to that same id. *)
Theorem id_remap coco_json_path output_dir noise_factor w k cd acc w1
    image_info sel p new w2 w' :
  before_image coco_json_path output_dir noise_factor k w = (Ok (cd, acc), w1) ->
  cd_images cd !! k = Some image_info ->
  select_annotations (cd_annotations cd) (ImageRecord.id image_info) w1 = (Ok sel, w1) ->
  add_noise_and_update_annotations (image_path_of coco_json_path image_info) sel
    (images_subdir coco_json_path output_dir)
    (ImageRecord.id image_info + id_offset) noise_factor w1 = (Ok (Some p, new), w2) ->
  augment_coco_dataset coco_json_path output_dir noise_factor w = (Ok tt, w') ->
  exists out image_out later before derived after,
    files w' !! new_coco_json_path coco_json_path output_dir = Some (FJson out) /\
    Coco.images out = acc.1 ++ image_out :: later /\
    ImageRecord.id image_out = ImageRecord.id image_info + 4200000 /\
    ImageRecord.width image_out = ImageRecord.width image_info /\
    ImageRecord.height image_out = ImageRecord.height image_info /\
    Coco.annotations out = before ++ derived ++ after /\
    length before = length acc.2 /\
    Forall2 (fun l ann =>
               exists d, heap w1 !! l = Some d /\
                         ann = <["image_id" := VInt (ImageRecord.id image_out)]> d /\
                         ann !! "image_id" = Some (VInt (ImageRecord.id image_info + 4200000)))
            sel derived.
Proof.
  intros Hbefore Hk Hsel Hinj Hrun.
  rewrite (augment_split _ _ _ k), (bind_ok _ _ _ _ _ Hbefore) in Hrun.
  destruct (from_image_step _ _ _ _ _ _ _ _ _ Hk Hrun)
    as (acc1 & w2' & acc' & w3 & Hbody & Hrest & _ & ->).
  rewrite (process_image_survives _ _ _ _ _ _ _ _ _ _ _ Hsel Hinj) in Hbody.
  inversion Hbody; subst acc1 w2'. clear Hbody.
  apply before_image_inv in Hbefore as (c & _ & _ & _ & Hd1 & _).
  destruct (inject_frame _ _ _ _ _ _ _ _ Hinj) as [Hp12 Hnew].
  destruct (Hnew _ _ eq_refl) as (_ & _ & Hcopy).
  assert (Hd2 : Forall (fun l => l ∈ dom (heap w2)) (cd_annotations cd)).
  { eapply Forall_impl; [exact Hd1|]. intros l. by apply preserved_dom. }
  destruct (process_images_spec _ _ _ _ _ _ _ _ _ Hd2 Hrest)
    as (ni & na & -> & Hp23 & _ & _).
  apply select_annotations_inv in Hsel as (_ & _ & ->).
  assert (Hsel' : Forall (fun l => is_Some (heap w1 !! l))
            (List.filter (image_id_is (heap w1) (ImageRecord.id image_info))
               (cd_annotations cd))).
  { apply Forall_forall. intros l [Hl _]%elem_of_filter_bool.
    rewrite Forall_forall in Hd1. by apply elem_of_dom, Hd1. }
  specialize (Hcopy Hsel').
  eexists. exists (noisy_image_info image_info (ImageRecord.id image_info + id_offset) p), ni.
  exists ((fun l => heap w3 !!! l) <$> acc.2), ((fun l => heap w3 !!! l) <$> new),
         ((fun l => heap w3 !!! l) <$> na).
  split; [apply lookup_insert_eq|]. simpl.
  split_and!; try done.
  - by rewrite <- app_assoc.
  - by rewrite <- !fmap_app, <- app_assoc.
  - by rewrite length_fmap.
  - apply Forall2_fmap_r. eapply Forall2_impl; [exact Hcopy|].
    intros l l' (d & Hl & _ & Hl'). exists d. simpl.
    rewrite (lookup_total_correct _ _ _ (Hp23 _ _ Hl')).
    split_and!; [done | done | apply lookup_insert_eq].
Qed.

(** ** A run completes *)

Lemma has_image_id_preserved h h' all :
  preserved h h' ->
  Forall (fun l => l ∈ dom h) all ->
  Forall (has_image_id h) all ->
  Forall (has_image_id h') all /\ Forall (fun l => l ∈ dom h') all.
Proof.
  intros Hp Hd Hh. split.
  - apply Forall_forall. intros l Hl. rewrite Forall_forall in Hd, Hh.
    unfold has_image_id. rewrite (preserved_total _ _ _ Hp (Hd _ Hl)). by apply Hh.
  - eapply Forall_impl; [exact Hd|]. intros l. by apply preserved_dom.
Qed.

(** Without failures of the operating system, with a standard deviation
    that is not negative, annotations that all have an ["image_id"] and
    image files that are images where they exist, the loop completes. *)
Lemma process_images_completes cj od nf all imgs acc w :
  faults w = ∅ -> (0 <= nf)%Q ->
  Forall (has_image_id (heap w)) all ->
  Forall (fun l => l ∈ dom (heap w)) all ->
  Forall (fun r => image_or_missing w (image_path_of cj r)) imgs ->
  exists acc' w',
    process_images cj od nf all imgs acc w = (Ok acc', w') /\ faults w' = ∅.
Proof.
  intros Hfaults Hnf. revert acc w Hfaults.
  induction imgs as [|r rest IH]; intros acc w Hfaults Hhas Hdom Himgs.
  { exists acc, w. done. }
  inversion Himgs as [|? ? Hr Hrest]; subst.
  pose proof (select_annotations_ok _ (ImageRecord.id r) _ Hhas) as Hsel.
  destruct (add_noise_and_update_annotations (image_path_of cj r)
              (List.filter (image_id_is (heap w) (ImageRecord.id r)) all)
              (images_subdir cj od) (ImageRecord.id r + id_offset) nf w)
    as [res w1] eqn:Hinj.
  pose proof (inject_inv _ _ _ _ _ _ _ _ Hinj) as Ho.
  assert (Hopen : forall e, Image_open (image_path_of cj r) w = (Raise e, w) ->
                            e = FileNotFoundError).
  { intros e. unfold Image_open. rewrite Hfaults, lookup_empty.
    destruct (files w !! image_path_of cj r) as [f|] eqn:Hf.
    - destruct (Hr _ Hf) as [a ->]. by intros [=].
    - by intros [=]. }
  inversion Ho as [e He Hne|He|a Ha Hneg|a e Ha Hpos Hf Hne|a Ha Hpos Hf
                  |a new h' Ha Hpos Hf Hpres Hlen Hnd Hfr Hc]; subst.
  - by apply Hopen in He.
  - cbn [process_images].
    rewrite bind_unfold, (process_image_dropped _ _ _ _ _ _ _ _ _ Hsel Hinj).
    apply IH; done.
  - exfalso. by eapply Qlt_not_le.
  - by rewrite Hfaults, lookup_empty in Hf.
  - by rewrite Hfaults, lookup_empty in Hf.
  - cbn [process_images].
    rewrite bind_unfold, (process_image_survives _ _ _ _ _ _ _ _ _ _ _ Hsel Hinj).
    destruct (has_image_id_preserved _ _ _ Hpres Hdom Hhas) as [Hhas' Hdom'].
    apply IH; try done.
    eapply Forall_impl; [exact Hrest|].
    intros r' Hr' f. simpl.
    destruct (decide (noisy_image_path (image_path_of cj r) (images_subdir cj od)
                      = image_path_of cj r')) as [->|Hne].
    + rewrite lookup_insert_eq. intros [= <-]. eauto.
    + rewrite lookup_insert_ne by done. apply Hr'.
Qed.

(** Under the same conditions a run completes and writes the annotation
    file. *)
Lemma augment_completes cj od nf w c :
  files w !! cj = Some (FJson c) ->
  faults w = ∅ -> (0 <= nf)%Q ->
  Forall (fun d : dict => is_Some (d !! "image_id")) (Coco.annotations c) ->
  Forall (fun r => image_or_missing w (image_path_of cj r)) (Coco.images c) ->
  exists w' out,
    augment_coco_dataset cj od nf w = (Ok tt, w') /\
    files w' !! new_coco_json_path cj od = Some (FJson out).
Proof.
  intros Hfile Hfaults Hnf Hids Himgs.
  unfold augment_coco_dataset. rewrite bind_unfold.
  unfold json_load at 1. rewrite Hfaults, lookup_empty, Hfile.
  destruct (alloc_dicts (Coco.annotations c) (heap w)) as [ls h] eqn:Halloc.
  apply alloc_dicts_spec in Halloc as (_ & Hc & Hd).
  rewrite bind_unfold. unfold makedirs at 1. simpl faults.
  rewrite Hfaults, lookup_empty.
  rewrite bind_unfold. unfold makedirs at 1. simpl faults.
  rewrite Hfaults, lookup_empty.
  rewrite bind_unfold. simpl cd_annotations. simpl cd_images.
  match goal with
  | |- context [process_images _ _ _ _ _ _ ?w0] =>
      destruct (process_images_completes cj od nf ls (Coco.images c) ([], []) w0)
        as (acc & w1 & Hloop & Hfaults1)
  end; try done.
  - apply Forall_forall. intros l Hl.
    destruct (list_elem_of_lookup_1 _ _ Hl) as [i Hi].
    destruct (Forall2_lookup_l _ _ _ _ _ Hc Hi) as (d & Hdi & Hld).
    unfold has_image_id. simpl. rewrite (lookup_total_correct _ _ _ Hld).
    rewrite Forall_forall in Hids. by eapply Hids, list_elem_of_lookup_2.
  - rewrite Hloop. unfold json_dump. rewrite Hfaults1, lookup_empty.
    do 2 eexists. split; [done|]. apply lookup_insert_eq.
Qed.




(** ** Facts about strings and paths *)

Module StrFacts.
Import Str.

Lemma rfind_absent c s : c ∉ s -> rfind c s = (-1).
Proof.
  induction s as [|x s IH]; [done|].
  intros [Hx Hs]%not_elem_of_cons. simpl. rewrite (IH Hs). simpl.
  by rewrite decide_False.
Qed.

Lemma rfind_last c pre post :
  c ∉ post -> rfind c (pre ++ c :: post) = Z.of_nat (length pre).
Proof.
  intros Hpost. induction pre as [|x pre IH]; simpl.
  - rewrite (rfind_absent _ _ Hpost). simpl. by rewrite decide_True.
  - rewrite IH. destruct (0 <=? Z.of_nat (length pre)) eqn:E; lia.
Qed.

Lemma rfind_spec c s :
  ((c ∉ s) /\ rfind c s = (-1)) \/
  (exists pre post, s = pre ++ c :: post /\ (c ∉ post) /\
                    rfind c s = Z.of_nat (length pre)).
Proof.
  destruct (decide (c ∈ s)) as [Hin|Hnot].
  - right. apply list_elem_of_split_r in Hin as (pre & post & -> & Hpost).
    exists pre, post. split_and!; [done | done | by apply rfind_last].
  - left. split; [done | by apply rfind_absent].
Qed.

Lemma bound_of_nat n (k : nat) : bound n (Z.of_nat k) = (n `min` k)%nat.
Proof. unfold bound. destruct (Z.of_nat k <? 0) eqn:E; lia. Qed.

Lemma from_of_nat (k : nat) s : from (Z.of_nat k) s = drop k s.
Proof.
  unfold from. rewrite bound_of_nat.
  destruct (decide (k <= length s)%nat).
  - by rewrite Nat.min_r.
  - rewrite Nat.min_l by lia. by rewrite !drop_ge by lia.
Qed.

Lemma upto_of_nat (k : nat) s : upto (Z.of_nat k) s = take k s.
Proof.
  unfold upto. rewrite bound_of_nat.
  destruct (decide (k <= length s)%nat).
  - by rewrite Nat.min_r.
  - rewrite Nat.min_l by lia. by rewrite !take_ge by lia.
Qed.

(** [s[-2:]]: the last two characters, or all of a shorter string. *)
Lemma from_minus_2 s : from (-2) s = drop (length s - 2) s.
Proof. unfold from, bound. simpl. f_equal. lia. Qed.

Lemma startswith_absent c s : c ∉ s -> startswith c s = false.
Proof.
  destruct s as [|x s]; [done|]. intros [Hx _]%not_elem_of_cons.
  simpl. by rewrite bool_decide_eq_false.
Qed.

Lemma endswith_absent c s : c ∉ s -> endswith c s = false.
Proof.
  unfold endswith. destruct (last s) as [x|] eqn:Hl; [|done].
  intros Hc. apply bool_decide_eq_false. intros ->.
  by apply Hc, last_Some_elem_of.
Qed.

Lemma endswith_app c a b : b <> [] -> endswith c (a ++ b) = endswith c b.
Proof.
  intros Hb. unfold endswith. rewrite last_app.
  destruct (last b) eqn:Hl; [done|]. by apply last_None in Hl.
Qed.

Lemma rstrip_fixed c s : endswith c s = false -> rstrip c s = s.
Proof.
  induction s as [|x s IH]; [done|]. intros He. simpl.
  destruct s as [|y s].
  - simpl. unfold endswith in He. simpl in He.
    apply bool_decide_eq_false in He. by rewrite decide_False.
  - rewrite IH; [done|]. unfold endswith in *. by rewrite last_cons_cons in He.
Qed.

Lemma rstrip_snoc c s : rstrip c (s ++ [c]) = rstrip c s.
Proof.
  induction s as [|x s IH]; simpl.
  - by rewrite decide_True.
  - by rewrite IH.
Qed.

Lemma replace_absent a b s : a <> b -> a ∉ replace a b s.
Proof.
  intros Hab (x & Hx & _)%list_elem_of_fmap.
  destruct (decide (x = a)); congruence.
Qed.

Lemma replace_app a b s t : replace a b (s ++ t) = replace a b s ++ replace a b t.
Proof. apply fmap_app. Qed.

Lemma replace_id a b s : a ∉ s -> replace a b s = s.
Proof.
  induction s as [|x s IH]; [done|]. intros [Hx Hs]%not_elem_of_cons.
  unfold replace in *. rewrite fmap_cons, decide_False by done. by rewrite IH.
Qed.

End StrFacts.

Module PathFacts.
Import Str StrFacts Path.

Lemma basename_spec p :
  ((sep ∉ p) /\ basename p = p) \/
  (exists pre, p = pre ++ sep :: basename p /\ (sep ∉ basename p)).
Proof.
  unfold basename.
  destruct (rfind_spec sep p) as [[Hp ->]|(pre & post & -> & Hpost & ->)].
  - left. split; [done|]. by rewrite (from_of_nat 0).
  - right. exists pre.
    replace (Z.of_nat (length pre) + 1) with (Z.of_nat (S (length pre))) by lia.
    rewrite from_of_nat.
    replace (drop (S (length pre)) (pre ++ sep :: post)) with post; [done|].
    rewrite cons_middle, app_assoc, drop_app_length'; [done|].
    rewrite length_app. simpl. lia.
Qed.

Lemma basename_no_sep p : sep ∉ basename p.
Proof. destruct (basename_spec p) as [[? ->]|(pre & _ & ?)]; done. Qed.

Lemma basename_app pre b : sep ∉ b -> basename (pre ++ sep :: b) = b.
Proof.
  intros Hb. unfold basename. rewrite (rfind_last _ _ _ Hb).
  replace (Z.of_nat (length pre) + 1) with (Z.of_nat (S (length pre))) by lia.
  rewrite from_of_nat, cons_middle, app_assoc.
  apply drop_app_length'. rewrite length_app. simpl. lia.
Qed.

Lemma splitext_root_prefix p : (splitext p).1 `prefix_of` p.
Proof.
  unfold splitext. case_match; simpl; [apply prefix_take | done].
Qed.

Lemma splitext_root_no_sep p : sep ∉ p -> sep ∉ (splitext p).1.
Proof.
  intros Hp Hin. apply Hp.
  destruct (splitext_root_prefix p) as [k Hk]. rewrite Hk.
  apply elem_of_app. by left.
Qed.

(** The stem of a file name: no separator in it. *)
Lemma stem_no_sep p : sep ∉ (splitext (basename p)).1.
Proof. apply splitext_root_no_sep, basename_no_sep. Qed.

Lemma join_relative a b :
  startswith sep b = false ->
  join a b = a ++ (if bool_decide (a = []) || endswith sep a then [] else [sep]) ++ b.
Proof. unfold join. intros ->. by destruct (bool_decide (a = []) || endswith sep a). Qed.

Lemma join_plain a b :
  a <> [] -> endswith sep a = false -> startswith sep b = false ->
  join a b = a ++ sep :: b.
Proof.
  intros Ha He Hb. rewrite (join_relative _ _ Hb), He.
  by rewrite bool_decide_eq_false_2.
Qed.

Lemma dirname_app a b :
  a <> [] -> endswith sep a = false -> sep ∉ b ->
  dirname (a ++ sep :: b) = a.
Proof.
  intros Ha He Hb. unfold dirname. rewrite (rfind_last _ _ _ Hb).
  replace (Z.of_nat (length a) + 1) with (Z.of_nat (S (length a))) by lia.
  rewrite upto_of_nat, cons_middle, app_assoc.
  rewrite take_app_length' by (rewrite length_app; simpl; lia).
  rewrite bool_decide_eq_true_2.
  - by rewrite rstrip_snoc, rstrip_fixed.
  - split; [by destruct a|]. intros Hall.
    unfold endswith in He. destruct (last a) as [x|] eqn:Hl.
    + apply bool_decide_eq_false in He. apply He.
      assert (Hx : x ∈ a ++ [sep]).
      { apply elem_of_app. left. by apply last_Some_elem_of. }
      rewrite Hall in Hx. by apply elem_of_replicate in Hx as [-> _].
    + by apply last_None in Hl.
Qed.

(** The last two characters of a string. *)
Lemma last_two s :
  from (-2) s `suffix_of` s /\ length (from (-2) s) = (2 `min` length s)%nat.
Proof.
  rewrite from_minus_2. split; [apply suffix_drop|]. rewrite length_drop. lia.
Qed.

Lemma last_two_no_sep s : sep ∉ s -> sep ∉ from (-2) s.
Proof.
  intros Hs Hin. apply Hs. rewrite from_minus_2 in Hin.
  by apply (subseteq_drop _ _ _ Hin).
Qed.

End PathFacts.

(** ** Claims about names and paths *)

Lemma sep_not_in_images_tag tag : Path.sep ∉ tag -> Path.sep ∉ py "images_" ++ tag.
Proof. intros Ht. apply not_elem_of_app. split; [compute_done | done]. Qed.

Lemma images_subdir_plain coco_json_path output_dir :
  images_subdir coco_json_path output_dir <> [] /\
  Str.endswith Path.sep (images_subdir coco_json_path output_dir) = false.
Proof.
  unfold images_subdir, last_two_letters.
  pose proof (PathFacts.last_two_no_sep _ (PathFacts.stem_no_sep coco_json_path)) as Htag.
  set (tag := Str.from (-2) _) in *.
  change (py "images" ++ py "_" ++ tag) with (py "images_" ++ tag).
  rewrite PathFacts.join_relative by done.
  split.
  - rewrite app_assoc. intros [_ [=]]%app_eq_nil.
  - rewrite app_assoc, StrFacts.endswith_app by done.
    by apply StrFacts.endswith_absent, sep_not_in_images_tag.
Qed.

Lemma noisy_image_name_no_sep image_path : Path.sep ∉ noisy_image_name image_path.
Proof.
  unfold noisy_image_name. apply not_elem_of_app.
  split; [apply PathFacts.stem_no_sep | compute_done].
Qed.


Module NormFacts.
Import Str StrFacts Path PathFacts.

Lemma join_cons s w ws : ws <> [] -> Str.join s (w :: ws) = w ++ s ++ Str.join s ws.
Proof. by destruct ws. Qed.

Lemma join_app s a b :
  a <> [] -> b <> [] -> Str.join s (a ++ b) = Str.join s a ++ s ++ Str.join s b.
Proof.
  intros Ha Hb. induction a as [|w a IH]; [done|].
  destruct a as [|w' a].
  - simpl app. by rewrite join_cons.
  - rewrite <- app_comm_cons, !join_cons by done.
    rewrite IH by done. by rewrite <- !app_assoc.
Qed.

Lemma split_absent c w : c ∉ w -> split c w = [w].
Proof.
  induction w as [|x w IH]; [done|]. intros [Hx Hw]%not_elem_of_cons.
  simpl. rewrite decide_False by done. by rewrite (IH Hw).
Qed.

Lemma split_sep c w rest : c ∉ w -> split c (w ++ c :: rest) = w :: split c rest.
Proof.
  induction w as [|x w IH]; intros Hw; simpl.
  - by rewrite decide_True.
  - apply not_elem_of_cons in Hw as [Hx Hw].
    rewrite decide_False by done. by rewrite (IH Hw).
Qed.

Lemma split_join comps :
  comps <> [] -> Forall (fun c => sep ∉ c) comps ->
  split sep (Str.join [sep] comps) = comps.
Proof.
  intros Hne Hall. induction Hall as [|w ws Hw Hws IH]; [done|].
  destruct ws as [|w' ws].
  - by apply split_absent.
  - rewrite join_cons by done. rewrite <- cons_middle, split_sep by done.
    f_equal. by apply IH.
Qed.

Lemma normcomps_plain initial comps acc :
  Forall plain comps -> normcomps initial comps acc = rev acc ++ comps.
Proof.
  intros Hall. revert acc.
  induction Hall as [|c cs (Hne & Hdot & Hdd & _) _ IH]; intros acc; simpl.
  - by rewrite app_nil_r.
  - rewrite bool_decide_eq_false_2 by (intros [?|?]; done).
    rewrite (bool_decide_eq_true_2 (c <> py "..")) by done. simpl.
    rewrite IH. simpl. by rewrite <- app_assoc.
Qed.

Lemma plain_no_sep comps : Forall plain comps -> Forall (fun c => sep ∉ c) comps.
Proof. intros H. eapply Forall_impl; [exact H|]. by intros c (_ & _ & _ & ?). Qed.

(** A path of plain components starts with the first character of its
    first component and ends with the last character of its last. *)
Lemma join_plain_head comps :
  comps <> [] -> Forall plain comps ->
  exists x t, Str.join [sep] comps = x :: t /\ x <> sep.
Proof.
  intros Hne Hall. destruct Hall as [|c cs (Hc & _ & _ & Hsep) _]; [done|].
  destruct c as [|x c]; [done|]. apply not_elem_of_cons in Hsep as [Hx _].
  destruct cs; simpl; eauto.
Qed.

Lemma join_plain_last comps :
  comps <> [] -> Forall plain comps ->
  Str.join [sep] comps <> [] /\ endswith sep (Str.join [sep] comps) = false.
Proof.
  intros Hne Hall. induction Hall as [|c cs (Hc & _ & _ & Hsep) Hcs IH]; [done|].
  destruct cs as [|c' cs].
  - simpl. split; [done | by apply endswith_absent].
  - rewrite join_cons by done. destruct IH as [IH1 IH2]; [done|]. split.
    + by destruct c.
    + by rewrite app_assoc, endswith_app.
Qed.

Lemma path_of_plain_last absolute comps :
  comps <> [] -> Forall plain comps ->
  path_of absolute comps <> [] /\ endswith sep (path_of absolute comps) = false.
Proof.
  intros Hne Hall. destruct (join_plain_last _ Hne Hall) as [H1 H2].
  unfold path_of. split.
  - intros [_ ?]%app_eq_nil. done.
  - by rewrite endswith_app.
Qed.

(** Appending a component with [os.path.join]. *)
Lemma join_path_of absolute comps b :
  Forall plain comps -> startswith sep b = false ->
  Path.join (path_of absolute comps) b
  = path_of absolute comps
      ++ (if bool_decide (comps = []) then [] else [sep]) ++ b.
Proof.
  intros Hall Hb. destruct comps as [|c cs].
  - rewrite (join_relative _ _ Hb), (bool_decide_eq_true_2 ([] = [])) by done.
    by destruct absolute.
  - destruct (path_of_plain_last absolute (c :: cs)) as [H1 H2]; [done | done |].
    by rewrite join_plain.
Qed.

Lemma path_of_snoc absolute comps b :
  path_of absolute comps ++ (if bool_decide (comps = []) then [] else [sep]) ++ b
  = path_of absolute (comps ++ [b]).
Proof.
  unfold path_of. destruct comps as [|c cs].
  - rewrite bool_decide_eq_true_2 by done. by destruct absolute.
  - rewrite bool_decide_eq_false_2 by done.
    rewrite (join_app [sep] (c :: cs) [b]) by done. by rewrite <- !app_assoc.
Qed.

Lemma path_of_app absolute comps names :
  comps <> [] -> names <> [] ->
  path_of absolute comps ++ sep :: Str.join [sep] names
  = path_of absolute (comps ++ names).
Proof.
  intros Hc Hn. unfold path_of. rewrite (join_app [sep]) by done.
  by rewrite <- !app_assoc.
Qed.

(** [normpath] keeps a path of plain components. *)
Lemma normpath_plain absolute comps :
  comps <> [] -> Forall plain comps ->
  normpath (path_of absolute comps) = path_of absolute comps.
Proof.
  intros Hne Hall.
  destruct (join_plain_head _ Hne Hall) as (x & t & Hj & Hx).
  pose proof (split_join _ Hne (plain_no_sep _ Hall)) as Hsplit.
  unfold path_of. destruct absolute.
  - remember ([sep] ++ Str.join [sep] comps) as P eqn:HP.
    assert (H0 : P <> []) by (by subst P).
    assert (H1 : startswith sep P = true) by (by subst P).
    assert (H2 : startswith sep (drop 1 P) = false)
      by (subst P; simpl; rewrite Hj; by apply bool_decide_eq_false_2).
    assert (H3 : split sep P = [] :: comps)
      by (subst P; change ([sep] ++ Str.join [sep] comps)
                     with ([] ++ sep :: Str.join [sep] comps);
          rewrite (split_sep sep []) by apply not_elem_of_nil;
          by rewrite Hsplit).
    unfold normpath. rewrite H1, H2, H3. simpl andb. cbv iota.
    rewrite (bool_decide_eq_false_2 (P = [])) by done.
    rewrite (bool_decide_eq_true_2 (1%nat <> 0%nat)) by done.
    simpl normcomps. rewrite normcomps_plain by done.
    simpl. by subst P.
  - remember ([] ++ Str.join [sep] comps) as P eqn:HP.
    assert (H0 : P <> []) by (subst P; simpl; by rewrite Hj).
    assert (H1 : startswith sep P = false)
      by (subst P; simpl; rewrite Hj; by apply bool_decide_eq_false_2).
    assert (H3 : split sep P = comps) by (by subst P).
    unfold normpath. rewrite H1, H3. cbv iota.
    rewrite (bool_decide_eq_false_2 (P = [])) by done.
    rewrite (bool_decide_eq_false_2 (0%nat <> 0%nat)) by (intros H; by apply H).
    rewrite normcomps_plain by done. simpl. simpl in HP. rewrite <- HP.
    by rewrite bool_decide_eq_false_2.
Qed.

End NormFacts.

Lemma images_tag_plain coco_json_path :
  plain (py "images_" ++ Str.from (-2) (Path.splitext (Path.basename coco_json_path)).1).
Proof.
  split_and!; try done.
  apply sep_not_in_images_tag, PathFacts.last_two_no_sep, PathFacts.stem_no_sep.
Qed.

(** C8: the path of the image file is [os.path.join] of the directory of
    the input file, [images_<tag>] and the file name without its first
    seven characters, put through [normpath], with every backslash
    replaced by a slash, so that it has no backslash.  When the directory
    and the remaining file name are made of plain components, that is
    the directory, [images_<tag>] and the file name, separated by
    slashes. *)
Theorem image_path_resolution coco_json_path image_info :
  let tag := Str.from (-2) (Path.splitext (Path.basename coco_json_path)).1 in
  let component := py "images_" ++ tag in
  let rest := drop 7 (ImageRecord.file_name image_info) in
  image_path_of coco_json_path image_info
  = Str.replace Path.backslash Path.sep
      (Path.normpath
         (Path.join (Path.join (Path.dirname coco_json_path) component) rest)) /\
  (Path.backslash ∉ image_path_of coco_json_path image_info) /\
  forall absolute dirs names,
    Path.dirname coco_json_path = path_of absolute dirs ->
    Forall plain dirs ->
    rest = Str.join [Path.sep] names -> names <> [] -> Forall plain names ->
    image_path_of coco_json_path image_info
    = Str.replace Path.backslash Path.sep
        (path_of absolute (dirs ++ component :: names)).
Proof.
  intros tag component rest.
  assert (Hdef : image_path_of coco_json_path image_info
                 = Str.replace Path.backslash Path.sep
                     (Path.normpath
                        (Path.join (Path.join (Path.dirname coco_json_path) component)
                           rest))).
  { unfold image_path_of, Path.join3, last_two_letters.
    change 7 with (Z.of_nat 7). by rewrite StrFacts.from_of_nat. }
  split; [exact Hdef|]. split.
  { unfold image_path_of. by apply StrFacts.replace_absent. }
  intros absolute dirs names Hdir Hdirs Hrest Hne Hnames.
  rewrite Hdef, Hdir. f_equal.
  pose proof (images_tag_plain coco_json_path) as Hcomp. fold tag component in Hcomp.
  assert (Hall : Forall plain (dirs ++ [component])).
  { apply Forall_app. split; [done | by constructor]. }
  destruct (NormFacts.join_plain_head _ Hne Hnames) as (x & t & Hj & Hx).
  rewrite NormFacts.join_path_of by done.
  rewrite NormFacts.path_of_snoc.
  rewrite NormFacts.join_path_of;
    [|done | rewrite Hrest, Hj; by apply bool_decide_eq_false_2].
  rewrite bool_decide_eq_false_2 by (intros [_ [=]]%app_eq_nil).
  rewrite Hrest. change ([Path.sep] ++ ?s) with (Path.sep :: s).
  rewrite NormFacts.path_of_app; [|by intros [_ [=]]%app_eq_nil | done].
  rewrite <- app_assoc. simpl app.
  apply NormFacts.normpath_plain.
  - by intros [_ [=]]%app_eq_nil.
  - apply Forall_app. split; [done | by constructor].
Qed.

Example scenario_one_image :
  (augment_coco_dataset Example.coco_json_path Example.output_dir 0 Example.world1).1
  = Ok tt /\
  files (augment_coco_dataset Example.coco_json_path Example.output_dir 0
           Example.world1).2
  !! py "out/augmented_noise_DK.json"
  = Some (FJson (Coco.mk [Example.img_out] [Example.ann_out] ∅)) /\
  files (augment_coco_dataset Example.coco_json_path Example.output_dir 0
           Example.world1).2
  !! py "out/images_DK/a_augmented_noise.png"
  = Some (FImage Example.pixels1).
Proof. split_and!; vm_compute; reflexivity. Qed.

Example scenario_missing_image :
  files (Example.final Example.world0) !! py "out/augmented_noise_DK.json"
  = Some (FJson (Coco.mk [] [] ∅)) /\
  stdout (Example.final Example.world0)
  = [py "File not found: d/images_DK/a.jpg. Skipping this image.";
     py "Removing annotations for image ID: 1"].
Proof. split; vm_compute; reflexivity. Qed.

Example noisy_pixels :
  files (Example.final Example.world1) !! py "out/images_DK/a_augmented_noise.png"
  = Some (FImage [240; 3; 17]).
Proof. vm_compute. reflexivity. Qed.

(** * Instances of the theorems, and counterexamples *)

Import Example.

Lemma referential_integrity_witness :
  exists out,
    files (final world1) !! new_coco_json_path coco_json_path output_dir
    = Some (FJson out) /\
    forall ann, ann ∈ Coco.annotations out ->
      exists k, ann !! "image_id" = Some (VInt k) /\
        length (List.filter (fun r => ImageRecord.id r =? k) (Coco.images out)) = 1%nat.
Proof.
  apply (referential_integrity coco_json_path output_dir sigma world1 _ coco1).
  - vm_compute. reflexivity.
  - apply NoDup_singleton.
  - vm_compute. reflexivity.
Defined.

Lemma id_remap_witness :
  exists out image_out later before derived after,
    files (final world1) !! new_coco_json_path coco_json_path output_dir
    = Some (FJson out) /\
    Coco.images out = [] ++ image_out :: later /\
    ImageRecord.id image_out = 1 + 4200000 /\
    ImageRecord.width image_out = VInt 100 /\
    ImageRecord.height image_out = VInt 80 /\
    Coco.annotations out = before ++ derived ++ after /\
    length before = 0%nat /\
    Forall2 (fun l ann =>
               exists d, heap (at_loop world1) !! l = Some d /\
                         ann = <["image_id" := VInt (ImageRecord.id image_out)]> d /\
                         ann !! "image_id" = Some (VInt (1 + 4200000)))
            [0%nat] derived.
Proof.
  apply (id_remap coco_json_path output_dir sigma world1 0 cd1 ([], [])
           (at_loop world1) img1 [0%nat]
           (py "out/images_DK/a_augmented_noise.png") [1%nat]
           (first_call world1).2 (final world1)).
  - vm_compute. reflexivity.
  - reflexivity.
  - vm_compute. reflexivity.
  - vm_compute. reflexivity.
  - vm_compute. reflexivity.
Defined.





Lemma zero_noise_is_identity_witness :
  noisy_image_array pixels1 (samples_in 0 (at_loop world1) (length pixels1)) = pixels1 /\
  exists new w',
    add_noise_and_update_annotations (py "d/images_DK/a.jpg") [0%nat] (py "out/images_DK")
      4200001 0 (at_loop world1)
    = (Ok (Some (noisy_image_path (py "d/images_DK/a.jpg") (py "out/images_DK")), new), w') /\
    files w' !! noisy_image_path (py "d/images_DK/a.jpg") (py "out/images_DK")
    = Some (FImage pixels1).
Proof.
  apply (zero_noise_is_identity (py "d/images_DK/a.jpg") [0%nat] (py "out/images_DK")
           4200001 0 (at_loop world1) pixels1).
  - reflexivity.
  - vm_compute. reflexivity.
  - unfold uint8_array, pixels1. repeat constructor; lia.
  - vm_compute. reflexivity.
Defined.


Lemma image_path_resolution_witness :
  image_path_of coco_json_path img1
  = Str.replace Path.backslash Path.sep
      (path_of false ([py "d"] ++ (py "images_" ++ py "DK") :: [py "a.jpg"])).
Proof.
  destruct (image_path_resolution coco_json_path img1) as (_ & _ & Hplain).
  apply (Hplain false [py "d"] [py "a.jpg"]).
  - reflexivity.
  - repeat constructor; compute_done.
  - reflexivity.
  - done.
  - repeat constructor; compute_done.
Defined.

Lemma selected_annotations_copied_witness :
  exists selected,
    select_annotations [0%nat] 1 (at_loop world1) = (Ok selected, at_loop world1) /\
    selected `sublist_of` [0%nat] /\
    (forall l, l ∈ selected <->
               l ∈ [0%nat] /\ image_id_is (heap (at_loop world1)) 1 l = true) /\
    (([output_record coco_json_path output_dir img1], [1%nat]) = ([], []) \/
     exists new,
       ([output_record coco_json_path output_dir img1], [1%nat])
       = ([] ++ [output_record coco_json_path output_dir img1], [] ++ new) /\
       Forall2 (fun l l' =>
                  exists d d',
                    heap (at_loop world1) !! l = Some d /\
                    heap (first_call world1).2 !! l = Some d /\
                    heap (first_call world1).2 !! l' = Some d' /\
                    d' !! "image_id" = Some (VInt (1 + id_offset)) /\
                    forall key, key <> "image_id" -> d' !! key = d !! key)
               selected new).
Proof.
  apply (selected_annotations_copied coco_json_path output_dir sigma [0%nat] img1
           ([], []) (at_loop world1)
           ([output_record coco_json_path output_dir img1], [1%nat])
           (first_call world1).2).
  - repeat constructor. vm_compute. eauto.
  - vm_compute. reflexivity.
Defined.

Lemma annotations_not_mutated_witness :
  (forall l d, heap (at_loop world1) !! l = Some d ->
               heap (first_call world1).2 !! l = Some d) /\
  (forall l d key, l ∈ [0%nat] -> heap (at_loop world1) !! l = Some d ->
     (heap (first_call world1).2 !!! l) !! key = d !! key) /\
  (forall p new, (first_call world1).1 = Ok (p, new) ->
     NoDup new /\
     (forall l', l' ∈ new -> heap (at_loop world1) !! l' = None) /\
     (Forall (fun l => is_Some (heap (at_loop world1) !! l)) [0%nat] ->
      (forall l', l' ∈ new -> l' ∉ [0%nat]) /\
      (is_Some p ->
       Forall2 (fun l l' =>
                  exists d, heap (at_loop world1) !! l = Some d /\
                            heap (first_call world1).2 !! l = Some d /\
                            heap (first_call world1).2 !! l'
                            = Some (<["image_id" := VInt (1 + id_offset)]> d))
               [0%nat] new))).
Proof.
  apply (annotations_not_mutated (image_path_of coco_json_path img1) [0%nat]
           (images_subdir coco_json_path output_dir) (1 + id_offset) sigma
           (at_loop world1) (first_call world1).1 (first_call world1).2).
  vm_compute. reflexivity.
Defined.

(** * Further properties of the program *)

(** ** The noise *)


(** X2: the image a call writes has as many pixels as the source image
    and every one of them is in [[0, 255]], whatever the samples and
    whatever the source pixels. *)
Theorem written_image_is_uint8 (image_path : str) (annotations : list loc)
    (od : str) (new_image_id : Z) (nf : Q) w p new w' :
  add_noise_and_update_annotations image_path annotations od new_image_id nf w
  = (Ok (Some p, new), w') ->
  exists a a',
    Image_open image_path w = (Ok a, w) /\
    files w' !! p = Some (FImage a') /\
    length a' = length a /\
    uint8_array a'.
Proof.
  intros H. apply inject_inv in H as Ho.
  inversion Ho as [| | | | |a new' h' Hopen Hpos Hfault Hpres Hlen Hnd Hfr Hc]; subst.
  exists a. eexists. split; [done|]. split; [simpl; apply lookup_insert_eq|].
  split; [|apply noisy_image_array_uint8].
  rewrite noisy_image_array_wraps, length_zip_with.
  unfold samples_in. rewrite length_fmap, length_seq. lia.
Qed.

Lemma written_image_is_uint8_witness :
  exists a a',
    Image_open (image_path_of coco_json_path img1) (at_loop world1)
    = (Ok a, at_loop world1) /\
    files (first_call world1).2 !! py "out/images_DK/a_augmented_noise.png"
    = Some (FImage a') /\
    length a' = length a /\
    uint8_array a'.
Proof.
  apply (written_image_is_uint8 (image_path_of coco_json_path img1) [0%nat]
           (images_subdir coco_json_path output_dir) (1 + id_offset) sigma
           (at_loop world1) (py "out/images_DK/a_augmented_noise.png") [1%nat]
           (first_call world1).2).
  vm_compute. reflexivity.
Defined.

(** ** Runs that do not complete *)



Lemma select_annotations_raises all image_id w :
  Exists (fun l => (heap w !!! l) !! "image_id" = None) all ->
  select_annotations all image_id w = (Raise KeyError, w).
Proof.
  induction all as [|l rest IH]; intros Hex; [by inversion Hex|].
  cbn [select_annotations]. rewrite bind_unfold. unfold dict_getitem at 1.
  destruct ((heap w !!! l) !! "image_id") as [v|] eqn:Hl; [|done].
  rewrite bind_unfold, IH; [done|].
  inversion Hex as [? ? Hhere|]; subst; [congruence | done].
Qed.

(** X4: when the list of images is not empty and an annotation has no
    ["image_id"], the run does not complete and writes no file, neither an
    image nor the annotation file, and prints nothing; the exception is
    [KeyError] unless the operating system fails on the input file or on
    the creation of a directory. *)
Theorem annotation_without_image_id_aborts (cj od : str) (nf : Q) w c d :
  files w !! cj = Some (FJson c) ->
  Coco.images c <> [] ->
  d ∈ Coco.annotations c -> d !! "image_id" = None ->
  exists e w',
    augment_coco_dataset cj od nf w = (Raise e, w') /\
    files w' = files w /\ stdout w' = stdout w /\
    (faults w !! cj = None -> faults w !! od = None ->
     faults w !! images_subdir cj od = None -> e = KeyError).
Proof.
  intros Hfile Himgs Hd Hkey.
  unfold augment_coco_dataset. rewrite bind_unfold.
  unfold json_load at 1. destruct (faults w !! cj) as [e|] eqn:Hf1.
  { exists e, w. split_and!; try done. }
  rewrite Hfile.
  destruct (alloc_dicts (Coco.annotations c) (heap w)) as [ls h] eqn:Halloc.
  apply alloc_dicts_spec in Halloc as (_ & Hc & _).
  rewrite bind_unfold. unfold makedirs at 1. simpl faults.
  destruct (faults w !! od) as [e|] eqn:Hf2.
  { do 2 eexists. split_and!; try done. }
  rewrite bind_unfold. unfold makedirs at 1. simpl faults.
  destruct (faults w !! images_subdir cj od) as [e|] eqn:Hf3.
  { do 2 eexists. split_and!; try done. }
  rewrite bind_unfold. simpl cd_images. simpl cd_annotations.
  destruct (Coco.images c) as [|r rest]; [done|].
  cbn [process_images]. rewrite bind_unfold. unfold process_image at 1.
  rewrite bind_unfold.
  rewrite select_annotations_raises.
  { do 2 eexists. split_and!; done. }
  apply Exists_exists.
  destruct (list_elem_of_lookup_1 _ _ Hd) as [i Hi].
  destruct (Forall2_lookup_r _ _ _ _ _ Hc Hi) as (l & Hl & Hld).
  exists l. split; [by eapply list_elem_of_lookup_2|].
  simpl. by rewrite (lookup_total_correct _ _ _ Hld).
Qed.

Lemma annotation_without_image_id_aborts_witness :
  exists e w',
    augment_coco_dataset coco_json_path output_dir sigma world_nokey = (Raise e, w') /\
    files w' = files world_nokey /\ stdout w' = stdout world_nokey /\
    (faults world_nokey !! coco_json_path = None ->
     faults world_nokey !! output_dir = None ->
     faults world_nokey !! images_subdir coco_json_path output_dir = None ->
     e = KeyError).
Proof.
  apply (annotation_without_image_id_aborts coco_json_path output_dir sigma world_nokey
           (Coco.mk [img1] [ann1; ann_nokey] ∅) ann_nokey).
  - vm_compute. reflexivity.
  - discriminate.
  - right. left.
  - vm_compute. reflexivity.
Defined.

(** ** The files a run touches *)

Lemma writes_within_refl P w : writes_within P w w.
Proof. by split. Qed.

Lemma writes_within_trans P w1 w2 w3 :
  writes_within P w1 w2 -> writes_within P w2 w3 -> writes_within P w1 w3.
Proof.
  intros [H1 H1'] [H2 H2']. split.
  - intros p Hp. by rewrite H2, H1.
  - intros p Hp. auto.
Qed.

Lemma writes_within_weaken (P Q : str -> Prop) w w' :
  (forall p, P p -> Q p) -> writes_within P w w' -> writes_within Q w w'.
Proof. intros HPQ [H1 H2]. split; [|done]. intros p Hp. apply H1. auto. Qed.

Lemma writes_within_same_files P w w' : files w' = files w -> writes_within P w w'.
Proof. intros Hf. split; intros p; by rewrite Hf. Qed.

Lemma writes_within_insert (P : str -> Prop) w w' path f :
  P path -> files w' = <[path := f]> (files w) -> writes_within P w w'.
Proof.
  intros HP Hf. split; intros p Hp; rewrite Hf.
  - rewrite lookup_insert_ne; [done|]. by intros ->.
  - destruct (decide (path = p)) as [->|Hne].
    + rewrite lookup_insert_eq. eauto.
    + by rewrite lookup_insert_ne.
Qed.

Lemma outcome_writes ip anns od nid nf w r w' :
  outcome ip anns od nid nf w r w' ->
  writes_within (fun p => p = noisy_image_path ip od) w w'.
Proof.
  intros Ho. inversion Ho; subst; try (by apply writes_within_same_files).
  by eapply writes_within_insert.
Qed.

Lemma process_image_writes cj od nf all r acc w res w' :
  process_image cj od nf all r acc w = (res, w') ->
  writes_within
    (fun p => p = noisy_image_path (image_path_of cj r) (images_subdir cj od)) w w'.
Proof.
  unfold process_image. intros H.
  apply bind_inv in H as [(sel & w0 & Hsel & H)|(e & Hsel & _)].
  2: { apply select_annotations_world in Hsel as ->. apply writes_within_refl. }
  apply select_annotations_world in Hsel as ->.
  apply bind_inv in H as [(r0 & w1 & Hinj & H)|(e & Hinj & _)].
  2: { by apply inject_inv, outcome_writes in Hinj. }
  apply inject_inv, outcome_writes in Hinj.
  eapply writes_within_trans; [exact Hinj|].
  destruct r0.1; [by inversion H|].
  unfold mbind, M_bind, print in H. inversion H; subst.
  by apply writes_within_same_files.
Qed.

Lemma process_images_writes cj od nf all imgs acc w res w' :
  process_images cj od nf all imgs acc w = (res, w') ->
  writes_within
    (fun p => exists r, r ∈ imgs /\
                        p = noisy_image_path (image_path_of cj r) (images_subdir cj od))
    w w'.
Proof.
  revert acc w. induction imgs as [|r rest IH]; intros acc w H; simpl in H.
  - inversion H; subst. apply writes_within_refl.
  - apply bind_inv in H as [(acc1 & w1 & Hbody & H)|(e & Hbody & _)].
    + eapply writes_within_trans.
      * eapply writes_within_weaken; [|exact (process_image_writes _ _ _ _ _ _ _ _ _ Hbody)].
        intros p ->. exists r. split; [left | done].
      * eapply writes_within_weaken; [|exact (IH _ _ H)].
        intros p (r' & Hr' & ->). exists r'. split; [by right | done].
    + eapply writes_within_weaken; [|exact (process_image_writes _ _ _ _ _ _ _ _ _ Hbody)].
      intros p ->. exists r. split; [left | done].
Qed.

(** X5: whatever its result, a run changes no file but the annotation
    file it writes and the noisy images of the images of the input, and it
    removes no file; so the input file and the source images are as they
    were unless their paths are among those. *)
Theorem run_writes_only_outputs (cj od : str) (nf : Q) w r w' c :
  files w !! cj = Some (FJson c) ->
  augment_coco_dataset cj od nf w = (r, w') ->
  (forall p,
     p <> new_coco_json_path cj od ->
     (forall image_info, image_info ∈ Coco.images c ->
        p <> noisy_image_path (image_path_of cj image_info) (images_subdir cj od)) ->
     files w' !! p = files w !! p) /\
  (forall p, is_Some (files w !! p) -> is_Some (files w' !! p)).
Proof.
  intros Hfile H.
  cut (writes_within
         (fun p => p = new_coco_json_path cj od \/
                   exists image_info, image_info ∈ Coco.images c /\
                     p = noisy_image_path (image_path_of cj image_info)
                           (images_subdir cj od)) w w').
  { intros [H1 H2]. split; [|done]. intros p Hp Himgs. apply H1.
    intros [->|(r0 & Hr0 & ->)]; [done | by eapply Himgs]. }
  unfold augment_coco_dataset in H.
  apply bind_inv in H as [(cd & w1 & Hload & H)|(e & Hload & _)].
  2: { apply writes_within_same_files. unfold json_load in Hload.
       repeat case_match; by inversion Hload. }
  apply json_load_inv in Hload as (c' & Hfile' & Himgs & _ & _ & _ & Hho).
  rewrite Hfile in Hfile'. inversion Hfile'; subst c'.
  assert (Hf1 : files w1 = files w) by (rewrite Hho; by destruct w).
  apply bind_inv in H as [([] & w2 & Hmk1 & H)|(e & Hmk1 & _)].
  2: { apply writes_within_same_files. unfold makedirs in Hmk1.
       case_match; inversion Hmk1; by subst. }
  apply makedirs_inv in Hmk1 as ->.
  apply bind_inv in H as [([] & w3 & Hmk2 & H)|(e & Hmk2 & _)].
  2: { apply writes_within_same_files. unfold makedirs in Hmk2.
       case_match; inversion Hmk2; by subst. }
  apply makedirs_inv in Hmk2 as ->.
  apply (writes_within_trans _ w w1); [by apply writes_within_same_files|].
  apply bind_inv in H as [(acc & w4 & Hloop & H)|(e & Hloop & _)].
  - apply process_images_writes in Hloop. rewrite Himgs in Hloop.
    eapply writes_within_trans.
    + eapply writes_within_weaken; [|exact Hloop]. intros p Hp. by right.
    + unfold json_dump in H. destruct (faults w4 !! _).
      * inversion H; subst. apply writes_within_refl.
      * inversion H; subst. eapply writes_within_insert; [by left | done].
  - apply process_images_writes in Hloop. rewrite Himgs in Hloop.
    eapply writes_within_weaken; [|exact Hloop]. intros p Hp. by right.
Qed.

Lemma run_writes_only_outputs_witness :
  (forall p,
     p <> new_coco_json_path coco_json_path output_dir ->
     (forall image_info, image_info ∈ Coco.images coco1 ->
        p <> noisy_image_path (image_path_of coco_json_path image_info)
               (images_subdir coco_json_path output_dir)) ->
     files (final world1) !! p = files world1 !! p) /\
  (forall p, is_Some (files world1 !! p) -> is_Some (files (final world1) !! p)).
Proof.
  apply (run_writes_only_outputs coco_json_path output_dir sigma world1
           (augment_coco_dataset coco_json_path output_dir sigma world1).1
           (final world1) coco1).
  - vm_compute. reflexivity.
  - vm_compute. reflexivity.
Defined.

(** ** The written annotation file *)

Lemma noisy_image_path_in_subdir cj od image_path :
  noisy_image_path image_path (images_subdir cj od)
  = images_subdir cj od ++ Path.sep :: noisy_image_name image_path.
Proof.
  destruct (images_subdir_plain cj od) as [Hne Hend].
  unfold noisy_image_path. apply PathFacts.join_plain; [done | done |].
  apply StrFacts.startswith_absent, noisy_image_name_no_sep.
Qed.

Lemma output_record_file_name cj od image_info :
  ImageRecord.file_name (output_record cj od image_info)
  = py "images\" ++ noisy_image_name (image_path_of cj image_info).
Proof.
  unfold output_record, noisy_image_info. cbn [ImageRecord.file_name].
  rewrite noisy_image_path_in_subdir, PathFacts.basename_app; [done|].
  apply noisy_image_name_no_sep.
Qed.

(** X6: in the file a run writes, the top-level keys other than ["images"]
    and ["annotations"] are those of the input, and the images are records
    made for images of the input, in the order of the input and none more
    often than there.  The record made for an image has the id plus
    4200000, the width and height of the original, and as file name
    [images\ ] followed by the name of the noisy image: the stem of the
    resolved image path, [_augmented_noise] and [.png]. *)
Theorem output_images_follow_input (cj od : str) (nf : Q) w w' c :
  files w !! cj = Some (FJson c) ->
  augment_coco_dataset cj od nf w = (Ok tt, w') ->
  exists out,
    files w' !! new_coco_json_path cj od = Some (FJson out) /\
    Coco.others out = Coco.others c /\
    Coco.images out `sublist_of` (output_record cj od <$> Coco.images c) /\
    forall image_info,
      output_record cj od image_info
      = ImageRecord.mk
          (ImageRecord.id image_info + 4200000)
          (py "images\"
             ++ (Path.splitext (Path.basename (image_path_of cj image_info))).1
             ++ py "_augmented_noise.png")
          (ImageRecord.width image_info)
          (ImageRecord.height image_info).
Proof.
  intros Hfile Hrun.
  destruct (augment_output _ _ _ _ _ _ Hfile Hrun) as (out & Hout & Hoth & Hsub & _).
  exists out. split_and!; try done.
  intros image_info.
  pose proof (output_record_file_name cj od image_info) as Hname.
  destruct (output_record cj od image_info) as [i f wd ht] eqn:Hrec.
  unfold output_record, noisy_image_info in Hrec. inversion Hrec; subst.
  simpl in Hname. by rewrite Hname.
Qed.

Lemma output_images_follow_input_witness :
  exists out,
    files (final world2) !! new_coco_json_path coco_json_path output_dir
    = Some (FJson out) /\
    Coco.others out = Coco.others coco2 /\
    Coco.images out `sublist_of` (output_record coco_json_path output_dir <$> Coco.images coco2) /\
    forall image_info,
      output_record coco_json_path output_dir image_info
      = ImageRecord.mk
          (ImageRecord.id image_info + 4200000)
          (py "images\"
             ++ (Path.splitext (Path.basename (image_path_of coco_json_path image_info))).1
             ++ py "_augmented_noise.png")
          (ImageRecord.width image_info)
          (ImageRecord.height image_info).
Proof.
  apply (output_images_follow_input coco_json_path output_dir sigma world2
           (final world2) coco2).
  - vm_compute. reflexivity.
  - vm_compute. reflexivity.
Defined.

(** X7: when no two image ids of the input differ by 4200000 (so when
    all of them are in [[0, 4200000)]), no image of the written file has the
    id of an image of the input, and no annotation of the written file
    refers to an image of the input. *)
Theorem output_ids_are_new (cj od : str) (nf : Q) w w' c :
  files w !! cj = Some (FJson c) ->
  (forall r1 r2, r1 ∈ Coco.images c -> r2 ∈ Coco.images c ->
                 ImageRecord.id r1 + 4200000 <> ImageRecord.id r2) ->
  augment_coco_dataset cj od nf w = (Ok tt, w') ->
  exists out,
    files w' !! new_coco_json_path cj od = Some (FJson out) /\
    (forall r' r, r' ∈ Coco.images out -> r ∈ Coco.images c ->
                  ImageRecord.id r' <> ImageRecord.id r) /\
    (forall ann r, ann ∈ Coco.annotations out -> r ∈ Coco.images c ->
                   ann !! "image_id" <> Some (VInt (ImageRecord.id r))).
Proof.
  intros Hfile Hgap Hrun.
  destruct (augment_output _ _ _ _ _ _ Hfile Hrun) as (out & Hout & _ & Hsub & Hanns).
  exists out. split; [done|]. split.
  - intros r' r Hr' Hr. apply (sublist_subseteq _ _ Hsub) in Hr'.
    apply list_elem_of_fmap in Hr' as (r0 & -> & Hr0). simpl. by apply Hgap.
  - intros ann r Hann Hr. rewrite Forall_forall in Hanns.
    destruct (Hanns _ Hann) as (r0 & d & v & Hr0 & _ & _ & _ & _ & ->).
    rewrite lookup_insert_eq. intros [= Heq]. by apply (Hgap r0 r).
Qed.

Lemma output_ids_are_new_witness :
  exists out,
    files (final world2) !! new_coco_json_path coco_json_path output_dir
    = Some (FJson out) /\
    (forall r' r, r' ∈ Coco.images out -> r ∈ Coco.images coco2 ->
                  ImageRecord.id r' <> ImageRecord.id r) /\
    (forall ann r, ann ∈ Coco.annotations out -> r ∈ Coco.images coco2 ->
                   ann !! "image_id" <> Some (VInt (ImageRecord.id r))).
Proof.
  apply (output_ids_are_new coco_json_path output_dir sigma world2 (final world2) coco2).
  - vm_compute. reflexivity.
  - intros r1 r2 Hr1 Hr2.
    assert (H1 : 1 <= ImageRecord.id r1 <= 2).
    { apply elem_of_cons in Hr1 as [->|Hr1]; [simpl; lia|].
      apply list_elem_of_singleton in Hr1 as ->. simpl. lia. }
    assert (H2 : 1 <= ImageRecord.id r2 <= 2).
    { apply elem_of_cons in Hr2 as [->|Hr2]; [simpl; lia|].
      apply list_elem_of_singleton in Hr2 as ->. simpl. lia. }
    lia.
  - vm_compute. reflexivity.
Defined.

(** ** A run in which every image is there *)

Lemma filter_matching h image_id all (ds : list dict) :
  Forall2 (fun l d => h !! l = Some d) all ds ->
  Forall2 (fun l d => h !! l = Some d)
          (List.filter (image_id_is h image_id) all)
          (List.filter (matching image_id) ds).
Proof.
  induction 1 as [|l d all ds Hl _ IH]; [constructor|].
  simpl. unfold image_id_is at 1, matching at 1.
  rewrite (lookup_total_correct _ _ _ Hl).
  destruct (d !! "image_id") as [v|]; [|done].
  destruct (eq_int v image_id); [by constructor | done].
Qed.

Lemma Forall2_compose {A B C D} (R1 : A -> B -> Prop) (R2 : A -> C -> Prop)
    (R3 : B -> D -> Prop) (f : C -> D) l k m :
  Forall2 R1 l k -> Forall2 R2 l m ->
  (forall x y z, R1 x y -> R2 x z -> R3 y (f z)) ->
  Forall2 R3 k (f <$> m).
Proof.
  intros H1. revert m. induction H1 as [|x y l k Hxy _ IH]; intros m H2 Himp.
  - inversion H2; subst. constructor.
  - inversion H2 as [|? z ? m' Hxz H2']; subst. rewrite fmap_cons.
    constructor; [by eapply Himp | by apply IH].
Qed.

Lemma lookup_total_fmap (h : gmap loc dict) (ls : list loc) (ds : list dict) :
  Forall2 (fun l d => h !! l = Some d) ls ds -> (fun l => h !!! l) <$> ls = ds.
Proof.
  induction 1 as [|l d ls ds Hl _ IH]; [done|].
  rewrite fmap_cons, IH. by rewrite (lookup_total_correct _ _ _ Hl).
Qed.

Lemma image_present_open cj w r :
  faults w = ∅ -> image_present cj w r ->
  exists a, Image_open (image_path_of cj r) w = (Ok a, w).
Proof.
  intros Hf [a Ha]. exists a. unfold Image_open. by rewrite Hf, lookup_empty, Ha.
Qed.

Lemma process_images_all_present cj od nf all (ds : list dict) imgs acc w :
  faults w = ∅ -> (0 <= nf)%Q ->
  Forall2 (fun l d => heap w !! l = Some d) all ds ->
  Forall (fun d : dict => is_Some (d !! "image_id")) ds ->
  Forall (image_present cj w) imgs ->
  exists new w',
    process_images cj od nf all imgs acc w
    = (Ok (acc.1 ++ (output_record cj od <$> imgs), acc.2 ++ new), w') /\
    preserved (heap w) (heap w') /\
    Forall2 (fun l' d' => heap w' !! l' = Some d') new
            (concat (expected_annotations ds <$> imgs)) /\
    stdout w' = stdout w /\ faults w' = ∅.
Proof.
  intros Hfaults Hnf. revert acc w Hfaults.
  induction imgs as [|r rest IH]; intros acc w Hfaults Hc Hids Himgs.
  { exists [], w. simpl. rewrite !app_nil_r.
    split_and!; [by destruct acc | apply preserved_refl | constructor | done | done]. }
  inversion Himgs as [|? ? Hr Hrest]; subst.
  assert (Hdom : Forall (fun l => l ∈ dom (heap w)) all).
  { apply Forall_forall. intros l (i & Hi)%list_elem_of_lookup_1.
    destruct (Forall2_lookup_l _ _ _ _ _ Hc Hi) as (d & _ & Hl).
    apply elem_of_dom. eauto. }
  assert (Hhas : Forall (has_image_id (heap w)) all).
  { apply Forall_forall. intros l (i & Hi)%list_elem_of_lookup_1.
    destruct (Forall2_lookup_l _ _ _ _ _ Hc Hi) as (d & Hd & Hl).
    unfold has_image_id. rewrite (lookup_total_correct _ _ _ Hl).
    rewrite Forall_forall in Hids. by eapply Hids, list_elem_of_lookup_2. }
  pose proof (select_annotations_ok _ (ImageRecord.id r) _ Hhas) as Hsel.
  destruct (image_present_open _ _ _ Hfaults Hr) as [a Hopen].
  destruct (add_noise_and_update_annotations (image_path_of cj r)
              (List.filter (image_id_is (heap w) (ImageRecord.id r)) all)
              (images_subdir cj od) (ImageRecord.id r + id_offset) nf w)
    as [res w1] eqn:Hinj.
  pose proof (inject_inv _ _ _ _ _ _ _ _ Hinj) as Ho.
  inversion Ho as [e He Hne|He|a' Ha Hneg|a' e Ha Hpos Hf Hne|a' Ha Hpos Hf
                  |a' new h' Ha Hpos Hf Hpres Hlen Hnd Hfr Hcopy]; subst;
    try congruence.
  - exfalso. by eapply Qlt_not_le.
  - by rewrite Hfaults, lookup_empty in Hf.
  - by rewrite Hfaults, lookup_empty in Hf.
  - cbn [process_images].
    rewrite bind_unfold, (process_image_survives _ _ _ _ _ _ _ _ _ _ _ Hsel Hinj).
    set (w1 := set_heap _ _) in *.
    assert (Hc1 : Forall2 (fun l d => heap w1 !! l = Some d) all ds).
    { eapply Forall2_impl; [exact Hc|]. intros l d Hl. by apply Hpres. }
    assert (Hrest1 : Forall (image_present cj w1) rest).
    { eapply Forall_impl; [exact Hrest|]. intros r' [b Hb]. unfold image_present.
      simpl.
      destruct (decide (noisy_image_path (image_path_of cj r) (images_subdir cj od)
                        = image_path_of cj r')) as [->|Hne].
      - rewrite lookup_insert_eq. eauto.
      - rewrite lookup_insert_ne by done. eauto. }
    destruct (IH (acc.1 ++ [noisy_image_info r (ImageRecord.id r + id_offset)
                              (noisy_image_path (image_path_of cj r)
                                 (images_subdir cj od))],
                  acc.2 ++ new) w1 Hfaults Hc1 Hids Hrest1)
      as (new' & w' & Hrun & Hp' & Hexp & Hout & Hf').
    exists (new ++ new'), w'. split_and!.
    + rewrite Hrun. simpl. by rewrite <- !app_assoc.
    + by eapply preserved_trans.
    + rewrite fmap_cons. simpl concat. apply Forall2_app; [|done].
      assert (Hseld : Forall (fun l => l ∈ dom (heap w))
                (List.filter (image_id_is (heap w) (ImageRecord.id r)) all)).
      { apply Forall_forall. intros l [Hl _]%elem_of_filter_bool.
        rewrite Forall_forall in Hdom. auto. }
      eapply (Forall2_compose _ _ _ _ _ _ _ (Hcopy Hseld) (filter_matching _ _ _ _ Hc)).
      intros l l' d Hl' Hl. apply Hp'. simpl.
      by rewrite Hl', (lookup_total_correct _ _ _ Hl).
    + done.
    + done.
Qed.

(** X8: when the operating system does not fail, the standard deviation
    is not negative, every annotation has an ["image_id"] and the file of
    every image is there, a run completes and prints nothing, and the file
    it writes is this: for the images, the record made for each image of
    the input, in order; for the annotations, image after image, the
    annotations of the input that match the image, in their order, each
    with the new id; the other keys as in the input.  An annotation that
    matches no image is not in it; one that matches two is in it twice. *)
Theorem all_images_present_output (cj od : str) (nf : Q) w c :
  files w !! cj = Some (FJson c) ->
  faults w = ∅ -> (0 <= nf)%Q ->
  Forall (fun d : dict => is_Some (d !! "image_id")) (Coco.annotations c) ->
  Forall (image_present cj w) (Coco.images c) ->
  exists w',
    augment_coco_dataset cj od nf w = (Ok tt, w') /\
    files w' !! new_coco_json_path cj od = Some (FJson (expected_output cj od c)) /\
    stdout w' = stdout w.
Proof.
  intros Hfile Hfaults Hnf Hids Himgs.
  unfold augment_coco_dataset. rewrite bind_unfold.
  unfold json_load at 1. rewrite Hfaults, lookup_empty, Hfile.
  destruct (alloc_dicts (Coco.annotations c) (heap w)) as [ls h] eqn:Halloc.
  apply alloc_dicts_spec in Halloc as (_ & Hc & _).
  rewrite bind_unfold. unfold makedirs at 1. simpl faults.
  rewrite Hfaults, lookup_empty.
  rewrite bind_unfold. unfold makedirs at 1. simpl faults.
  rewrite Hfaults, lookup_empty.
  rewrite bind_unfold. simpl cd_annotations. simpl cd_images.
  match goal with
  | |- context [process_images _ _ _ _ _ _ ?w0] =>
      destruct (process_images_all_present cj od nf ls (Coco.annotations c)
                  (Coco.images c) ([], []) w0)
        as (new & w1 & Hloop & _ & Hexp & Hout & Hfaults1)
  end; try done.
  rewrite Hloop. unfold json_dump. rewrite Hfaults1, lookup_empty.
  eexists. split; [done|]. split; [|done]. simpl.
  rewrite lookup_insert_eq. unfold expected_output.
  by rewrite (lookup_total_fmap _ _ _ Hexp).
Qed.

Lemma all_images_present_output_witness :
  exists w',
    augment_coco_dataset coco_json_path output_dir sigma world2 = (Ok tt, w') /\
    files w' !! new_coco_json_path coco_json_path output_dir
    = Some (FJson (expected_output coco_json_path output_dir coco2)) /\
    stdout w' = stdout world2.
Proof.
  apply (all_images_present_output coco_json_path output_dir sigma world2 coco2).
  - vm_compute. reflexivity.
  - reflexivity.
  - discriminate.
  - repeat constructor; vm_compute; eauto.
  - repeat constructor; eexists; vm_compute; reflexivity.
Defined.

Example expected_output_on_two_images :
  Coco.annotations (expected_output coco_json_path output_dir coco2)
  = [<["image_id" := VInt 4200001]> ann1;
     <["image_id" := VInt 4200002]> ann2;
     <["image_id" := VInt 4200002]> ann2] /\
  ImageRecord.id <$> Coco.images (expected_output coco_json_path output_dir coco2)
  = [4200001; 4200002].
Proof. split; vm_compute; reflexivity. Qed.

(** ** A run in which no image is there *)




Example lines_of_a_run_without_images :
  stdout (augment_coco_dataset coco_json_path output_dir (-3 # 1) world_gone).2
  = [py "File not found: d/images_DK/a.jpg. Skipping this image.";
     py "Removing annotations for image ID: 1";
     py "File not found: d/images_DK/b.png. Skipping this image.";
     py "Removing annotations for image ID: 2"].
Proof. vm_compute. reflexivity. Qed.

(** ** The annotation file and the noise *)

Lemma related_ret {A} (R : A -> A -> Prop) a b : R a b -> related R (mret a) (mret b).
Proof. intros HR w1 w2 Hs. by split. Qed.

Lemma related_raise {A} (R : A -> A -> Prop) e : related R (raise e) (raise e).
Proof. intros w1 w2 Hs. by split. Qed.

Lemma related_bind {A B} (R : A -> A -> Prop) (S : B -> B -> Prop)
    (m1 m2 : M A) (k1 k2 : A -> M B) :
  related R m1 m2 -> (forall a b, R a b -> related S (k1 a) (k2 b)) ->
  related S (m1 ≫= k1) (m2 ≫= k2).
Proof.
  intros Hm Hk w1 w2 Hs. rewrite !bind_unfold.
  destruct (Hm w1 w2 Hs) as [Hs' HR].
  destruct (m1 w1) as [[a|e1] w1'], (m2 w2) as [[b|e2] w2']; simpl in *; try done.
  by apply Hk.
Qed.

Lemma related_try {A} (R : A -> A -> Prop) (b1 b2 : M A) (h1 h2 : exn -> M A) :
  related R b1 b2 -> (forall e, related R (h1 e) (h2 e)) ->
  related R (try_except b1 h1) (try_except b2 h2).
Proof.
  intros Hb Hh w1 w2 Hs. unfold try_except.
  destruct (Hb w1 w2 Hs) as [Hs' HR].
  destruct (b1 w1) as [[a|e1] w1'], (b2 w2) as [[b|e2] w2']; simpl in *; try done.
  subst. by apply Hh.
Qed.

Lemma related_print msg : related eq (print msg) (print msg).
Proof.
  intros w1 w2 (Hh & Hf & Hd & Hfa & Ho). split; [|done].
  unfold same_but_pixels. simpl. by rewrite Ho.
Qed.

Lemma related_makedirs path : related eq (makedirs path) (makedirs path).
Proof.
  intros w1 w2 Hs. pose proof Hs as (Hh & Hf & Hd & Hfa & Ho).
  unfold makedirs. rewrite Hfa. destruct (faults w2 !! path); [done|].
  split; [|done]. unfold same_but_pixels. simpl. by rewrite Hd.
Qed.

Lemma same_but_pixels_lookup w1 w2 path :
  same_but_pixels w1 w2 -> erase <$> files w1 !! path = erase <$> files w2 !! path.
Proof. intros (_ & Hf & _). by rewrite <- !lookup_fmap, Hf. Qed.

Lemma related_Image_open path :
  related (fun _ _ => True) (Image_open path) (Image_open path).
Proof.
  intros w1 w2 Hs. pose proof (same_but_pixels_lookup _ _ path Hs) as Hp.
  pose proof Hs as (Hh & Hf & Hd & Hfa & Ho).
  unfold Image_open. rewrite Hfa. destruct (faults w2 !! path); [done|].
  destruct (files w1 !! path) as [[]|], (files w2 !! path) as [[]|];
    simpl in *; try done.
Qed.

Lemma related_random_normal loc1 loc2 scale1 scale2 size1 size2 :
  (0 <= scale1)%Q -> (0 <= scale2)%Q ->
  related (fun _ _ => True) (random_normal loc1 scale1 size1)
          (random_normal loc2 scale2 size2).
Proof.
  intros H1 H2 w1 w2 Hs. unfold random_normal.
  destruct (Qlt_le_dec scale1 0) as [Hlt|_]; [by apply Qlt_not_le in Hlt|].
  destruct (Qlt_le_dec scale2 0) as [Hlt|_]; [by apply Qlt_not_le in Hlt|].
  by split.
Qed.

Lemma related_Image_save path a b : related eq (Image_save path a) (Image_save path b).
Proof.
  intros w1 w2 Hs. pose proof Hs as (Hh & Hf & Hd & Hfa & Ho).
  unfold Image_save. rewrite Hfa. destruct (faults w2 !! path); [done|].
  split; [|done]. unfold same_but_pixels. simpl.
  by rewrite !fmap_insert, Hf.
Qed.

Lemma related_dict_copy l : related eq (dict_copy l) (dict_copy l).
Proof.
  intros w1 w2 (Hh & Hf & Hd & Hfa & Ho). unfold dict_copy, same_but_pixels. simpl.
  by rewrite Hh.
Qed.

Lemma related_dict_setitem l k v : related eq (dict_setitem l k v) (dict_setitem l k v).
Proof.
  intros w1 w2 (Hh & Hf & Hd & Hfa & Ho). unfold dict_setitem, same_but_pixels. simpl.
  by rewrite Hh.
Qed.

Lemma related_dict_getitem l k : related eq (dict_getitem l k) (dict_getitem l k).
Proof.
  intros w1 w2 Hs. pose proof Hs as (Hh & Hf & Hd & Hfa & Ho).
  unfold dict_getitem. rewrite Hh. by destruct ((heap w2 !!! l) !! k).
Qed.

Lemma related_json_load path : related eq (json_load path) (json_load path).
Proof.
  intros w1 w2 Hs. pose proof (same_but_pixels_lookup _ _ path Hs) as Hp.
  pose proof Hs as (Hh & Hf & Hd & Hfa & Ho).
  unfold json_load. rewrite Hfa. destruct (faults w2 !! path); [done|].
  destruct (files w1 !! path) as [[]|], (files w2 !! path) as [[]|];
    simpl in *; try done.
  injection Hp as ->. rewrite Hh.
  destruct (alloc_dicts _ _) as [ls h]. by split.
Qed.

Lemma related_json_dump path c : related eq (json_dump path c) (json_dump path c).
Proof.
  intros w1 w2 Hs. pose proof Hs as (Hh & Hf & Hd & Hfa & Ho).
  unfold json_dump. rewrite Hfa. destruct (faults w2 !! path); [done|].
  split; [|done]. unfold same_but_pixels. simpl.
  by rewrite !fmap_insert, Hf, Hh.
Qed.

Lemma related_update_annotations annotations nid acc :
  related eq (update_annotations annotations nid acc)
          (update_annotations annotations nid acc).
Proof.
  revert acc. induction annotations as [|l rest IH]; intros acc.
  { by apply related_ret. }
  cbn [update_annotations].
  eapply related_bind; [apply related_dict_copy|]. intros l' ? <-.
  eapply related_bind; [apply related_dict_setitem|]. intros _ _ _. apply IH.
Qed.

Lemma related_select_annotations annotations image_id :
  related eq (select_annotations annotations image_id)
          (select_annotations annotations image_id).
Proof.
  induction annotations as [|l rest IH]; [by apply related_ret|].
  cbn [select_annotations].
  eapply related_bind; [apply related_dict_getitem|]. intros v ? <-.
  eapply related_bind; [apply IH|]. intros sel ? <-. by apply related_ret.
Qed.

Lemma related_inject image_path annotations output_dir nid nf1 nf2 :
  (0 <= nf1)%Q -> (0 <= nf2)%Q ->
  related eq
    (add_noise_and_update_annotations image_path annotations output_dir nid nf1)
    (add_noise_and_update_annotations image_path annotations output_dir nid nf2).
Proof.
  intros H1 H2. unfold add_noise_and_update_annotations. apply related_try.
  - eapply related_bind; [apply related_Image_open|]. intros a b _.
    eapply related_bind; [by apply related_random_normal|]. intros s1 s2 _.
    eapply related_bind; [apply related_Image_save|]. intros _ _ _.
    eapply related_bind; [apply related_update_annotations|]. intros new ? <-.
    by apply related_ret.
  - intros []; try apply related_raise.
    eapply related_bind; [apply related_print|]. intros _ _ _. by apply related_ret.
Qed.

Lemma related_process_image cj od nf1 nf2 all image_info acc :
  (0 <= nf1)%Q -> (0 <= nf2)%Q ->
  related eq (process_image cj od nf1 all image_info acc)
          (process_image cj od nf2 all image_info acc).
Proof.
  intros H1 H2. unfold process_image.
  eapply related_bind; [apply related_select_annotations|]. intros sel ? <-.
  eapply related_bind; [by apply related_inject|]. intros r ? <-.
  destruct r.1; [by apply related_ret|].
  eapply related_bind; [apply related_print|]. intros _ _ _. by apply related_ret.
Qed.

Lemma related_process_images cj od nf1 nf2 all images acc :
  (0 <= nf1)%Q -> (0 <= nf2)%Q ->
  related eq (process_images cj od nf1 all images acc)
          (process_images cj od nf2 all images acc).
Proof.
  intros H1 H2. revert acc. induction images as [|r rest IH]; intros acc.
  { by apply related_ret. }
  cbn [process_images].
  eapply related_bind; [by apply related_process_image|]. intros acc' ? <-. apply IH.
Qed.

Lemma related_augment cj od nf1 nf2 :
  (0 <= nf1)%Q -> (0 <= nf2)%Q ->
  related eq (augment_coco_dataset cj od nf1) (augment_coco_dataset cj od nf2).
Proof.
  intros H1 H2. unfold augment_coco_dataset.
  eapply related_bind; [apply related_json_load|]. intros cd ? <-.
  eapply related_bind; [apply related_makedirs|]. intros _ _ _.
  eapply related_bind; [apply related_makedirs|]. intros _ _ _.
  eapply related_bind; [by apply related_process_images|]. intros acc ? <-.
  apply related_json_dump.
Qed.

(** X10: the noise has no part in what a run does besides the pixels it
    writes.  Two runs with standard deviations that are not negative, from
    worlds that differ at most in the pixels of the images and in the state
    of the random generator, end alike, both completing or both raising
    the same exception, print the same lines, and leave the same files up
    to the pixels of the images; so the annotation file one of them writes
    is the annotation file the other writes. *)
Theorem annotation_file_independent_of_noise (cj od : str) (nf1 nf2 : Q) w1 w2 :
  (0 <= nf1)%Q -> (0 <= nf2)%Q -> same_but_pixels w1 w2 ->
  (augment_coco_dataset cj od nf1 w1).1 = (augment_coco_dataset cj od nf2 w2).1 /\
  stdout (augment_coco_dataset cj od nf1 w1).2
  = stdout (augment_coco_dataset cj od nf2 w2).2 /\
  (forall p, erase <$> files (augment_coco_dataset cj od nf1 w1).2 !! p
             = erase <$> files (augment_coco_dataset cj od nf2 w2).2 !! p) /\
  (forall out,
     files (augment_coco_dataset cj od nf1 w1).2 !! new_coco_json_path cj od
     = Some (FJson out) ->
     files (augment_coco_dataset cj od nf2 w2).2 !! new_coco_json_path cj od
     = Some (FJson out)).
Proof.
  intros H1 H2 Hs.
  destruct (related_augment cj od nf1 nf2 H1 H2 w1 w2 Hs) as [Hs' HR].
  split_and!.
  - destruct (augment_coco_dataset cj od nf1 w1).1 as [[]|e1],
             (augment_coco_dataset cj od nf2 w2).1 as [[]|e2]; by subst.
  - by destruct Hs' as (_ & _ & _ & _ & Ho).
  - intros p. by apply same_but_pixels_lookup.
  - intros out Hout.
    pose proof (same_but_pixels_lookup _ _ (new_coco_json_path cj od) Hs') as Hp.
    rewrite Hout in Hp.
    destruct (files (augment_coco_dataset cj od nf2 w2).2 !! new_coco_json_path cj od)
      as [[]|]; simpl in Hp; congruence.
Qed.

Lemma annotation_file_independent_of_noise_witness :
  same_but_pixels world2 world2_other /\
  (augment_coco_dataset coco_json_path output_dir sigma world2).1
  = (augment_coco_dataset coco_json_path output_dir 0 world2_other).1 /\
  stdout (augment_coco_dataset coco_json_path output_dir sigma world2).2
  = stdout (augment_coco_dataset coco_json_path output_dir 0 world2_other).2 /\
  (forall p,
     erase <$> files (augment_coco_dataset coco_json_path output_dir sigma world2).2 !! p
     = erase <$> files (augment_coco_dataset coco_json_path output_dir 0 world2_other).2
         !! p) /\
  (forall out,
     files (augment_coco_dataset coco_json_path output_dir sigma world2).2
       !! new_coco_json_path coco_json_path output_dir
     = Some (FJson out) ->
     files (augment_coco_dataset coco_json_path output_dir 0 world2_other).2
       !! new_coco_json_path coco_json_path output_dir
     = Some (FJson out)).
Proof.
  assert (Hs : same_but_pixels world2 world2_other)
    by (repeat split; vm_compute; reflexivity).
  split; [exact Hs|].
  apply (annotation_file_independent_of_noise coco_json_path output_dir sigma 0
           world2 world2_other); [discriminate | discriminate | exact Hs].
Defined.

(** ** The written file as an input *)

Lemma splitext_ext (s e : str) :
  Path.sep ∉ s -> Path.sep ∉ e -> Path.extsep ∉ e ->
  existsb (fun c => bool_decide (c <> Path.extsep)) s = true ->
  Path.splitext (s ++ Path.extsep :: e) = (s, Path.extsep :: e).
Proof.
  intros Hs He Hdot Hex. unfold Path.splitext.
  rewrite (StrFacts.rfind_absent Path.sep).
  2: { apply not_elem_of_app. split; [done|]. apply not_elem_of_cons. by split. }
  rewrite (StrFacts.rfind_last _ _ _ Hdot).
  assert (Hslice : Str.slice (-1 + 1) (Z.of_nat (length s)) (s ++ Path.extsep :: e) = s).
  { unfold Str.slice. change (-1 + 1) with (Z.of_nat 0).
    rewrite !StrFacts.bound_of_nat, length_app.
    replace ((length s + length (Path.extsep :: e)) `min` 0)%nat with 0%nat by lia.
    replace ((length s + length (Path.extsep :: e)) `min` length s)%nat
      with (length s) by lia.
    rewrite Nat.sub_0_r, drop_0. apply take_app_length. }
  rewrite Hslice, Hex.
  replace (-1 <? Z.of_nat (length s)) with true by (symmetry; apply Z.ltb_lt; lia).
  simpl. rewrite StrFacts.upto_of_nat, StrFacts.from_of_nat.
  by rewrite take_app_length, drop_app_length.
Qed.

Lemma basename_subseteq p x : x ∈ Path.basename p -> x ∈ p.
Proof.
  destruct (PathFacts.basename_spec p) as [[_ ->]|(pre & Hp & _)]; [done|].
  intros Hx. rewrite Hp. apply elem_of_app. right. by right.
Qed.

Lemma splitext_root_subseteq p x : x ∈ (Path.splitext p).1 -> x ∈ p.
Proof.
  intros Hx. destruct (PathFacts.splitext_root_prefix p) as [k Hk].
  rewrite Hk. apply elem_of_app. by left.
Qed.

Lemma noisy_image_name_plain image_path : plain (noisy_image_name image_path).
Proof.
  assert (Hlen : (20 <= length (noisy_image_name image_path))%nat).
  { unfold noisy_image_name. rewrite length_app. simpl. lia. }
  split_and!; try (intros Heq; rewrite Heq in Hlen; simpl in Hlen; lia).
  apply noisy_image_name_no_sep.
Qed.

Lemma noisy_image_name_no_backslash cj image_info :
  Path.backslash ∉ noisy_image_name (image_path_of cj image_info).
Proof.
  unfold noisy_image_name. apply not_elem_of_app. split; [|compute_done].
  intros Hx. apply splitext_root_subseteq, basename_subseteq in Hx.
  revert Hx. unfold image_path_of. by apply StrFacts.replace_absent.
Qed.

(** The directory of the images, from plain components. *)
Lemma images_subdir_path_of cj absolute dirs :
  Forall plain dirs ->
  images_subdir cj (path_of absolute dirs)
  = path_of absolute
      (dirs ++ [py "images_" ++ Str.from (-2) (Path.splitext (Path.basename cj)).1]).
Proof.
  intros Hdirs. unfold images_subdir, last_two_letters.
  change (py "images" ++ py "_" ++ ?t) with (py "images_" ++ t).
  rewrite NormFacts.join_path_of by done. apply NormFacts.path_of_snoc.
Qed.

(** X11: the written file can be given to the program as its input.  When
    the output directory is made of plain components without backslash
    and the stem of the name of the input file has two characters or
    more, none a backslash, the written file has the tag of the input
    file, and the path the program resolves for a record of the written
    file is the path the noisy image of that record was written to. *)
Theorem output_is_reloadable (cj od : str) (absolute : bool) (dirs : list str)
    (image_info : ImageRecord.t) :
  od = path_of absolute dirs -> dirs <> [] -> Forall plain dirs ->
  (2 <= length (Path.splitext (Path.basename cj)).1)%nat ->
  Path.backslash ∉ od ->
  Path.backslash ∉ (Path.splitext (Path.basename cj)).1 ->
  last_two_letters (new_coco_json_path cj od) = last_two_letters cj /\
  image_path_of (new_coco_json_path cj od) (output_record cj od image_info)
  = noisy_image_path (image_path_of cj image_info) (images_subdir cj od).
Proof.
  intros -> Hne Hdirs Hlen Hbs_od Hbs_stem.
  set (stem := (Path.splitext (Path.basename cj)).1) in *.
  set (tag := Str.from (-2) stem).
  destruct (PathFacts.last_two stem) as [[pre Hpre] Htag]. fold tag in Hpre, Htag.
  rewrite Nat.min_l in Htag by lia.
  assert (Hsep : Path.sep ∉ tag).
  { apply PathFacts.last_two_no_sep, PathFacts.stem_no_sep. }
  assert (Hbs : Path.backslash ∉ tag).
  { intros Hx. apply Hbs_stem. rewrite Hpre. apply elem_of_app. by right. }
  set (fname := py "augmented_noise_" ++ tag ++ py ".json").
  assert (Hfsep : Path.sep ∉ fname).
  { unfold fname. rewrite !not_elem_of_app. split_and!; [compute_done | done | compute_done]. }
  destruct (NormFacts.path_of_plain_last absolute dirs Hne Hdirs) as [Hod Hend].
  assert (Hcj' : new_coco_json_path cj (path_of absolute dirs)
                 = path_of absolute dirs ++ Path.sep :: fname).
  { unfold new_coco_json_path, last_two_letters. fold stem tag.
    change (py "augmented_noise" ++ (py "_" ++ tag) ++ py ".json") with fname.
    apply PathFacts.join_plain; [done | done | by apply StrFacts.startswith_absent]. }
  assert (Hstem' : (Path.splitext fname).1 = py "augmented_noise_" ++ tag).
  { unfold fname. rewrite app_assoc.
    change (py ".json") with (Path.extsep :: py "json").
    rewrite splitext_ext; [done | | compute_done | compute_done | done].
    apply not_elem_of_app. split; [compute_done | done]. }
  assert (Htag' : last_two_letters (new_coco_json_path cj (path_of absolute dirs))
                  = last_two_letters cj).
  { unfold last_two_letters at 1. rewrite Hcj', PathFacts.basename_app by done.
    rewrite Hstem', StrFacts.from_minus_2. unfold last_two_letters. fold stem tag.
    f_equal. rewrite length_app, Htag. apply drop_app_length'. simpl. lia. }
  split; [exact Htag'|].
  unfold image_path_of at 1. rewrite Htag', Hcj'.
  rewrite PathFacts.dirname_app by done.
  rewrite output_record_file_name.
  change 7 with (Z.of_nat 7). rewrite StrFacts.from_of_nat.
  change (drop 7 (py "images\" ++ ?n)) with n.
  unfold Path.join3.
  change (Path.join (Path.join (path_of absolute dirs) (py "images" ++ last_two_letters cj))
            (noisy_image_name (image_path_of cj image_info)))
    with (noisy_image_path (image_path_of cj image_info)
            (images_subdir cj (path_of absolute dirs))).
  rewrite noisy_image_path_in_subdir, images_subdir_path_of by done. fold stem tag.
  pose proof (noisy_image_name_plain (image_path_of cj image_info)) as Hname.
  pose proof (images_tag_plain cj) as Himg. fold stem tag in Himg.
  change (noisy_image_name (image_path_of cj image_info))
    with (Str.join [Path.sep] [noisy_image_name (image_path_of cj image_info)]) at 1 2.
  rewrite NormFacts.path_of_app; [|by intros [_ [=]]%app_eq_nil | done].
  rewrite NormFacts.normpath_plain.
  2: { by intros [_ [=]]%app_eq_nil. }
  2: { rewrite !Forall_app. split_and!; [done | by constructor | by constructor]. }
  apply StrFacts.replace_id.
  rewrite <- NormFacts.path_of_app; [|by intros [_ [=]]%app_eq_nil | done].
  rewrite <- NormFacts.path_of_snoc.
  rewrite bool_decide_eq_false_2 by done.
  rewrite !not_elem_of_app, !not_elem_of_cons. simpl Str.join.
  split_and!; [done | compute_done | apply not_elem_of_nil | compute_done | done
              | compute_done | apply noisy_image_name_no_backslash].
Qed.

Lemma output_is_reloadable_witness :
  last_two_letters (new_coco_json_path coco_json_path output_dir)
  = last_two_letters coco_json_path /\
  image_path_of (new_coco_json_path coco_json_path output_dir)
    (output_record coco_json_path output_dir img1)
  = noisy_image_path (image_path_of coco_json_path img1)
      (images_subdir coco_json_path output_dir).
Proof.
  apply (output_is_reloadable coco_json_path output_dir false [py "out"] img1).
  - reflexivity.
  - done.
  - repeat constructor; compute_done.
  - vm_compute. lia.
  - compute_done.
  - compute_done.
Defined.

(** ** The script *)

Lemma normcomps_app_plain initial cs rest acc :
  Forall plain cs ->
  Path.normcomps initial (cs ++ rest) acc = Path.normcomps initial rest (rev cs ++ acc).
Proof.
  intros Hall. revert acc.
  induction Hall as [|c cs (Hne & Hdot & Hdd & _) _ IH]; intros acc; [done|].
  cbn [app Path.normcomps].
  rewrite bool_decide_eq_false_2 by (intros [?|?]; done).
  rewrite (bool_decide_eq_true_2 (c <> py "..")) by done.
  cbn [orb]. rewrite IH. simpl rev. by rewrite <- app_assoc.
Qed.

Lemma normcomps_dotdot initial top acc rest :
  top <> py ".." ->
  Path.normcomps initial (py ".." :: rest) (top :: acc) = Path.normcomps initial rest acc.
Proof.
  intros Htop. cbn [Path.normcomps].
  rewrite bool_decide_eq_false_2 by (intros [?|?]; done).
  rewrite (bool_decide_eq_false_2 (py ".." <> py "..")) by (intros H; by apply H).
  rewrite (bool_decide_eq_false_2 (top :: acc = [])) by done.
  rewrite (bool_decide_eq_false_2 (top = py "..")) by done.
  by rewrite andb_false_r.
Qed.

Lemma normcomps_skip_empty initial rest acc :
  Path.normcomps initial ([] :: rest) acc = Path.normcomps initial rest acc.
Proof. reflexivity. Qed.

(** [normpath] of an absolute path of plain components followed by
    [/../../]: the last two components are gone. *)
Lemma normpath_up_two comps d1 d2 :
  Forall plain (comps ++ [d1; d2]) ->
  Path.normpath (path_of true (comps ++ [d1; d2]) ++ Path.sep :: py "../../")
  = path_of true comps.
Proof.
  intros Hall.
  assert (Hne : comps ++ [d1; d2] <> []) by (by intros [_ [=]]%app_eq_nil).
  destruct (NormFacts.join_plain_head _ Hne Hall) as (x & t & Hj & Hx).
  apply Forall_app in Hall as Hsplit. destruct Hsplit as [Hcomps Hd].
  inversion Hd as [|? ? Hd1 Hd']; subst. inversion Hd' as [|? ? Hd2 _]; subst.
  set (all := (comps ++ [d1; d2]) ++ [py ".."; py ".."; []]).
  assert (Hpath : path_of true (comps ++ [d1; d2]) ++ Path.sep :: py "../../"
                  = [Path.sep] ++ Str.join [Path.sep] all).
  { unfold path_of, all. rewrite (NormFacts.join_app [Path.sep] _ _ Hne) by done.
    rewrite <- app_assoc. reflexivity. }
  assert (Hsepfree : Forall (fun c => Path.sep ∉ c) all).
  { apply Forall_app. split; [by apply NormFacts.plain_no_sep|].
    repeat constructor; compute_done. }
  assert (Hallne : all <> []) by (by intros [_ [=]]%app_eq_nil).
  pose proof (NormFacts.split_join _ Hallne Hsepfree) as Hsp.
  assert (Hhead : exists t', Str.join [Path.sep] all = x :: t').
  { unfold all. rewrite (NormFacts.join_app [Path.sep] _ _ Hne) by done.
    rewrite Hj. eauto. }
  destruct Hhead as [t' Hj'].
  rewrite Hpath. remember ([Path.sep] ++ Str.join [Path.sep] all) as P eqn:HP.
  assert (H0 : P <> []) by (by subst P).
  assert (H1 : Str.startswith Path.sep P = true) by (by subst P).
  assert (H2 : Str.startswith Path.sep (drop 1 P) = false)
    by (subst P; simpl; rewrite Hj'; by apply bool_decide_eq_false_2).
  assert (H3 : Str.split Path.sep P = [] :: all).
  { subst P. change ([Path.sep] ++ Str.join [Path.sep] all)
               with ([] ++ Path.sep :: Str.join [Path.sep] all).
    rewrite (NormFacts.split_sep Path.sep []) by apply not_elem_of_nil.
    by rewrite Hsp. }
  unfold Path.normpath. rewrite H1, H2, H3. simpl andb. cbv iota.
  rewrite (bool_decide_eq_false_2 (P = [])) by done.
  rewrite (bool_decide_eq_true_2 (1%nat <> 0%nat)) by done.
  rewrite normcomps_skip_empty.
  unfold all. rewrite normcomps_app_plain by (apply Forall_app; split; done).
  rewrite rev_app_distr, app_nil_r.
  change (rev [d1; d2] ++ rev comps) with (d2 :: d1 :: rev comps).
  destruct Hd1 as (_ & _ & Hd1 & _). destruct Hd2 as (_ & _ & Hd2 & _).
  rewrite (normcomps_dotdot true d2 (d1 :: rev comps)) by done.
  rewrite (normcomps_dotdot true d1 (rev comps)) by done.
  rewrite normcomps_skip_empty. cbn [Path.normcomps].
  rewrite rev_involutive. unfold path_of.
  by rewrite bool_decide_eq_false_2.
Qed.

Lemma join_names absolute comps names :
  Forall plain comps -> names <> [] -> Forall plain names ->
  Path.join (path_of absolute comps) (Str.join [Path.sep] names)
  = path_of absolute (comps ++ names).
Proof.
  intros Hcomps Hne Hnames.
  destruct (NormFacts.join_plain_head _ Hne Hnames) as (x & t & Hj & Hx).
  rewrite NormFacts.join_path_of; [|done | rewrite Hj; by apply bool_decide_eq_false_2].
  destruct comps as [|c cs].
  - rewrite bool_decide_eq_true_2 by done. by destruct absolute.
  - rewrite bool_decide_eq_false_2 by done. by apply NormFacts.path_of_app.
Qed.

(** X12: run as a file two directories below a directory [root] (an
    absolute path of plain components, as [__file__] is), in any working
    directory, the script is the augmentation of
    [root/dataset/frames/frames_DK.json] into
    [root/dataset/augmented/augmented_noise] with the standard deviation
    20: the tag is [DK], the noisy images go to the directory [images_DK]
    there and the annotation file is [augmented_noise_DK.json] there. *)
Theorem main_paths (cwd : str) (root : list str) (d1 d2 script : str) :
  Forall plain (root ++ [d1; d2; script]) ->
  let cj := path_of true (root ++ [py "dataset"; py "frames"; py "frames_DK.json"]) in
  let od := path_of true (root ++ [py "dataset"; py "augmented"; py "augmented_noise"]) in
  main cwd (path_of true (root ++ [d1; d2; script]))
  = augment_coco_dataset cj od (20 # 1) /\
  last_two_letters cj = py "_DK" /\
  images_subdir cj od
  = path_of true (root ++ [py "dataset"; py "augmented"; py "augmented_noise";
                           py "images_DK"]) /\
  new_coco_json_path cj od
  = path_of true (root ++ [py "dataset"; py "augmented"; py "augmented_noise";
                           py "augmented_noise_DK.json"]).
Proof.
  intros Hall cj od.
  assert (Hcut : root ++ [d1; d2; script] = (root ++ [d1; d2]) ++ [script])
    by (by rewrite <- app_assoc).
  rewrite Hcut in Hall. apply Forall_app in Hall as [Hdirs Hscript].
  inversion Hscript as [|? ? (_ & _ & _ & Hsep) _]; subst.
  assert (Hroot : Forall plain root) by (by apply Forall_app in Hdirs as [? _]).
  assert (Hne : root ++ [d1; d2] <> []) by (by intros [_ [=]]%app_eq_nil).
  destruct (NormFacts.path_of_plain_last true _ Hne Hdirs) as [Hane Haend].
  assert (Hdir : Path.dirname (path_of true (root ++ [d1; d2; script]))
                 = path_of true (root ++ [d1; d2])).
  { rewrite Hcut, <- (NormFacts.path_of_app true (root ++ [d1; d2]) [script]) by done.
    by apply PathFacts.dirname_app. }
  assert (Hproj : abspath cwd (Path.join (path_of true (root ++ [d1; d2])) (py "../../"))
                  = path_of true root).
  { rewrite PathFacts.join_plain by done. unfold abspath.
    replace (Str.startswith Path.sep
               (path_of true (root ++ [d1; d2]) ++ Path.sep :: py "../../"))
      with true by done.
    by apply normpath_up_two. }
  assert (Hcj : Path.join (Path.join (path_of true root) (py "dataset/frames"))
                  (py "frames_" ++ py "DK" ++ py ".json") = cj).
  { change (py "dataset/frames") with (Str.join [Path.sep] [py "dataset"; py "frames"]).
    rewrite join_names; [|done | done | repeat constructor; compute_done].
    change (py "frames_" ++ py "DK" ++ py ".json")
      with (Str.join [Path.sep] [py "frames_DK.json"]).
    rewrite join_names; [|
      apply Forall_app; split; [done | repeat constructor; compute_done]
      | done | repeat constructor; compute_done].
    unfold cj. by rewrite <- app_assoc. }
  assert (Hod : Path.join (path_of true root) (py "dataset/augmented/augmented_noise") = od).
  { change (py "dataset/augmented/augmented_noise")
      with (Str.join [Path.sep] [py "dataset"; py "augmented"; py "augmented_noise"]).
    by rewrite join_names; [|done | done | repeat constructor; compute_done]. }
  assert (Hodp : Forall plain (root ++ [py "dataset"; py "augmented"; py "augmented_noise"])).
  { apply Forall_app; split; [done | repeat constructor; compute_done]. }
  assert (Hbase : Path.basename cj = py "frames_DK.json").
  { unfold cj.
    replace (root ++ [py "dataset"; py "frames"; py "frames_DK.json"])
      with ((root ++ [py "dataset"; py "frames"]) ++ [py "frames_DK.json"])
      by (by rewrite <- app_assoc).
    rewrite <- (NormFacts.path_of_app true _ [py "frames_DK.json"]);
      [|by intros [_ [=]]%app_eq_nil | done].
    apply PathFacts.basename_app. compute_done. }
  assert (Htag : last_two_letters cj = py "_DK").
  { unfold last_two_letters. by rewrite Hbase. }
  split_and!.
  - unfold main. by rewrite Hdir, Hproj, Hcj, Hod.
  - exact Htag.
  - unfold od. rewrite images_subdir_path_of by done. rewrite Hbase.
    by rewrite <- app_assoc.
  - unfold new_coco_json_path. rewrite Htag. unfold od.
    rewrite NormFacts.join_path_of by done. rewrite NormFacts.path_of_snoc.
    by rewrite <- app_assoc.
Qed.

Lemma main_paths_witness :
  main (py "/home/user")
       (path_of true ([py "repo"] ++ [py "src"; py "data_augmentation";
                                      py "augment_data_noise.py"]))
  = augment_coco_dataset
      (path_of true ([py "repo"] ++ [py "dataset"; py "frames"; py "frames_DK.json"]))
      (path_of true ([py "repo"] ++ [py "dataset"; py "augmented"; py "augmented_noise"]))
      (20 # 1) /\
  last_two_letters
    (path_of true ([py "repo"] ++ [py "dataset"; py "frames"; py "frames_DK.json"]))
  = py "_DK" /\
  images_subdir
    (path_of true ([py "repo"] ++ [py "dataset"; py "frames"; py "frames_DK.json"]))
    (path_of true ([py "repo"] ++ [py "dataset"; py "augmented"; py "augmented_noise"]))
  = path_of true ([py "repo"] ++ [py "dataset"; py "augmented"; py "augmented_noise";
                                  py "images_DK"]) /\
  new_coco_json_path
    (path_of true ([py "repo"] ++ [py "dataset"; py "frames"; py "frames_DK.json"]))
    (path_of true ([py "repo"] ++ [py "dataset"; py "augmented"; py "augmented_noise"]))
  = path_of true ([py "repo"] ++ [py "dataset"; py "augmented"; py "augmented_noise";
                                  py "augmented_noise_DK.json"]).
Proof.
  apply (main_paths (py "/home/user") [py "repo"] (py "src") (py "data_augmentation")
           (py "augment_data_noise.py")).
  repeat constructor; compute_done.
Defined.
